(** * WebSocketServer: session registry, broadcast routing, listener lifecycle

    A shallow embedding of [src/WebSocketServer.ts].  The class is a record
    of its private fields; every method and every callback it installs is a
    function on that record.  Calls into the platform (sockets, the
    listener, the owner's callbacks, the logging proxy) are appended to a
    trace, and a JavaScript exception is an explicit [Throw] completion. *)

From Stdlib Require Import String Ascii List Bool Arith Lia.
From stdpp Require Import base tactics option list strings.
Import ListNotations.

Local Open Scope string_scope.
Local Open Scope list_scope.
Local Open Scope nat_scope.

(** ** JavaScript values the class relies on *)

(** Strings are sequences of code units.  A header value delivered by the
    platform is a byte string, so [ascii] covers every unit it can hold. *)

(** The white space and line terminator code units removed by
    [String.prototype.trim], restricted to the byte range:
    TAB, LF, VT, FF, CR, SPACE and NBSP. *)
Definition is_white_space (c : ascii) : bool :=
  let n := nat_of_ascii c in
  existsb (Nat.eqb n) [9; 10; 11; 12; 13; 32; 160].

Fixpoint trimStart (s : string) : string :=
  match s with
  | EmptyString => EmptyString
  | String c rest => if is_white_space c then trimStart rest else s
  end.

Fixpoint trimEnd (s : string) : string :=
  match s with
  | EmptyString => EmptyString
  | String c rest =>
      match trimEnd rest with
      | EmptyString => if is_white_space c then EmptyString else String c EmptyString
      | kept => String c kept
      end
  end.

(** [it.trim()] *)
Definition trim (s : string) : string := trimEnd (trimStart s).

(** [s.split(sep)] for a one-unit separator: the maximal separator-free
    segments of [s], in order; the empty string yields one empty segment. *)
Fixpoint split (sep : ascii) (s : string) : list string :=
  match s with
  | EmptyString => [EmptyString]
  | String c rest =>
      if Ascii.eqb c sep then EmptyString :: split sep rest
      else match split sep rest with
           | seg :: segs => String c seg :: segs
           | [] => [String c EmptyString]
           end
  end.

(** [array.includes(x)] on an array of numbers. *)
Definition includes (xs : list nat) (x : nat) : bool := existsb (Nat.eqb x) xs.

(** *** Plain objects used as dictionaries

    [#sessions] starts as the literal [{}].  Its own properties are kept in
    insertion order, the order [Object.keys] reports for keys that are not
    array indices (session identifiers are UUIDs).  A property read that
    finds no own property continues on [Object.prototype]. *)
Definition dictionary (A : Type) : Type := list (string * A).

Fixpoint own_property {A} (o : dictionary A) (k : string) : option A :=
  match o with
  | [] => None
  | (k', v) :: rest => if String.eqb k' k then Some v else own_property rest k
  end.

(** [o[k] = v]: an existing own property keeps its place. *)
Fixpoint set_property {A} (o : dictionary A) (k : string) (v : A) : dictionary A :=
  match o with
  | [] => [(k, v)]
  | (k', v') :: rest =>
      if String.eqb k' k then (k', v) :: rest else (k', v') :: set_property rest k v
  end.

(** [delete o[k]] *)
Fixpoint delete_property {A} (o : dictionary A) (k : string) : dictionary A :=
  match o with
  | [] => []
  | (k', v') :: rest =>
      if String.eqb k' k then delete_property rest k else (k', v') :: delete_property rest k
  end.

(** [Object.keys(o)] *)
Definition keys {A} (o : dictionary A) : list string := map fst o.

(** The members every object literal inherits from [Object.prototype] on
    the runtime the class targets; each of them is a function object. *)
Definition objectPrototypeMembers : list string :=
  [ "constructor"; "hasOwnProperty"; "isPrototypeOf"; "propertyIsEnumerable";
    "toLocaleString"; "toString"; "valueOf";
    "__defineGetter__"; "__defineSetter__"; "__lookupGetter__"; "__lookupSetter__" ].

(** The outcome of the read [o[k]]. *)
Inductive property (A : Type) : Type :=
| Own (v : A)      (* an own property: a session record *)
| Inherited        (* a member of Object.prototype: truthy, not a session *)
| Undefined.       (* no such property *)
Arguments Own {A} v.
Arguments Inherited {A}.
Arguments Undefined {A}.

Definition get_property {A} (o : dictionary A) (k : string) : property A :=
  match own_property o k with
  | Some v => Own v
  | None => if existsb (String.eqb k) objectPrototypeMembers then Inherited else Undefined
  end.

(** ** Types of the module *)

Inductive EWebSocketServerState : Type :=
| ServerStarted | ServerShutdown | ClientConnected | ClientDisconnected | Error.

(** [IWebSocketServerSession], the session metadata given to the owner. *)
Record IWebSocketServerSession : Type := mkServerSession {
  sessionId : string;
  sessionSubprotocols : list string
}.

(** [TWebSocketServerSessionSubprotocols]: [None] is an [undefined] entry. *)
Abbreviation TWebSocketServerSessionSubprotocols := (list (option string)).

(** The four configuration values of [IWebSocketServerOptions]; the two
    callbacks and the logging proxy appear as trace entries. *)
Record IWebSocketServerOptions : Type := mkOptions {
  name : string;
  port : nat;
  hostname : string;
  keepAlive : bool
}.

(** A value of [IWebSocketSessions]: the socket is a handle into the
    connection table, since the same [WebSocket] object is also held by the
    callbacks installed on it. *)
Record session : Type := mkSession {
  socket : nat;
  subprotocols : list string
}.

(** [WebSocket.CONNECTING], [OPEN], [CLOSING], [CLOSED]. *)
Definition CONNECTING : nat := 0.
Definition OPEN : nat := 1.
Definition CLOSING : nat := 2.
Definition CLOSED : nat := 3.

(** One [WebSocket] produced by [Deno.upgradeWebSocket], with the variables
    its four callbacks close over: [let sessionId] and [subprotocols]. *)
Record connection : Type := mkConnection {
  readyState : nat;
  sessionIdVar : string;
  requested : list string
}.

(** The request headers the handler reads; [None] is the [null] that
    [headers.get] returns for a missing header. *)
Record Request : Type := mkRequest {
  upgrade : option string;
  secWebsocketProtocol : option string
}.

Record Response : Type := mkResponse { status : nat }.

(** The methods of the logging proxy: [Log.d], [Log.v], [Log.i], [Log.w], [Log.e]. *)
Inductive level : Type := LogD | LogV | LogI | LogW | LogE.

(** A value handed to the logging proxy; a logged object is the list of its
    fields, and a bare value is listed under the empty field name. *)
Inductive logval : Type :=
| Str (s : string)
| Num (n : nat)
| Strs (l : list string)
| Nothing.

Definition optStr (o : option string) : logval :=
  match o with Some s => Str s | None => Nothing end.
Definition optNum (o : option nat) : logval :=
  match o with Some n => Num n | None => Nothing end.

(** Everything the class does to its surroundings, in call order. *)
Inductive effect : Type :=
| LogCall (lvl : level) (tag text : string) (data : list (string * logval))
| OnServerEvent (state : EWebSocketServerState) (value : option string)
                (about : option IWebSocketServerSession)
| OnMessageReceived (message : string) (about : IWebSocketServerSession)
| SocketSend (sock : nat) (message : string)
| SocketClose (sock : nat) (code : option nat) (reason : option string)
| UpgradeWebSocket (protocol : option string)
| DenoServe (onPort : nat) (onHostname : string)
| ListenerShutdown (listener : nat).

(** The rest of an [async] method parked at one of its [await]s. *)
Inductive continuation : Type :=
| StartAfterTeardown (fromRestart : bool) (* #start at [await this.#server.shutdown()] *)
| RestartAfterStart                       (* restart at [await this.#start()] *)
| ShutdownAfterTeardown.                  (* shutdown at [await this.#server?.shutdown()] *)

(** The instance: the private fields of the class, then the platform
    objects it created and its parked continuations, then the trace. *)
Record WebSocketServer : Type := mkServer {
  options : IWebSocketServerOptions;
  server : option nat;
  sessions : dictionary session;
  shouldShutDown : bool;
  connections : list connection;
  listeners : nat;
  suspended : list continuation;
  trace : list effect
}.

Definition with_server (v : option nat) (st : WebSocketServer) : WebSocketServer :=
  mkServer (options st) v (sessions st) (shouldShutDown st)
           (connections st) (listeners st) (suspended st) (trace st).
Definition with_sessions (v : dictionary session) (st : WebSocketServer) : WebSocketServer :=
  mkServer (options st) (server st) v (shouldShutDown st)
           (connections st) (listeners st) (suspended st) (trace st).
Definition with_shouldShutDown (v : bool) (st : WebSocketServer) : WebSocketServer :=
  mkServer (options st) (server st) (sessions st) v
           (connections st) (listeners st) (suspended st) (trace st).
Definition with_connections (v : list connection) (st : WebSocketServer) : WebSocketServer :=
  mkServer (options st) (server st) (sessions st) (shouldShutDown st)
           v (listeners st) (suspended st) (trace st).
Definition with_listeners (v : nat) (st : WebSocketServer) : WebSocketServer :=
  mkServer (options st) (server st) (sessions st) (shouldShutDown st)
           (connections st) v (suspended st) (trace st).
Definition with_suspended (v : list continuation) (st : WebSocketServer) : WebSocketServer :=
  mkServer (options st) (server st) (sessions st) (shouldShutDown st)
           (connections st) (listeners st) v (trace st).
Definition with_trace (v : list effect) (st : WebSocketServer) : WebSocketServer :=
  mkServer (options st) (server st) (sessions st) (shouldShutDown st)
           (connections st) (listeners st) (suspended st) v.

(** ** Computations on the instance *)

Inductive exception : Type :=
| TypeError (message : string)
| InvalidStateError (message : string)
| DOMException (name message : string)
| Thrown (message : string).

Inductive completion (A : Type) : Type :=
| Normal (a : A)
| Throw (e : exception).
Arguments Normal {A} a.
Arguments Throw {A} e.

Definition M (A : Type) : Type := WebSocketServer -> completion A * WebSocketServer.

Definition ret {A} (a : A) : M A := fun st => (Normal a, st).
Definition throw {A} (e : exception) : M A := fun st => (Throw e, st).
Definition bind {A B} (c : M A) (k : A -> M B) : M B :=
  fun st => match c st with
            | (Normal a, st') => k a st'
            | (Throw e, st') => (Throw e, st')
            end.
(** [try { c } catch (e) { h e }] *)
Definition try_catch {A} (c : M A) (h : exception -> M A) : M A :=
  fun st => match c st with
            | (Normal a, st') => (Normal a, st')
            | (Throw e, st') => h e st'
            end.
Definition get : M WebSocketServer := fun st => (Normal st, st).
Definition modify (f : WebSocketServer -> WebSocketServer) : M unit :=
  fun st => (Normal tt, f st).

Notation "'let!' x ':=' c 'in' k" := (bind c (fun x => k))
  (at level 10, x name, c at level 100, k at level 200).
Notation "c '>>' k" := (bind c (fun _ => k))
  (at level 90, right associativity).

Definition emit (e : effect) : M unit :=
  modify (fun st => with_trace (trace st ++ [e]) st).

(** [this.#tag] *)
Definition tag (st : WebSocketServer) : string :=
  ("WebSocketServer->" ++ name (options st))%string.

Definition log (lvl : level) (text : string) (data : list (string * logval)) : M unit :=
  let! st := get in emit (LogCall lvl (tag st) text data).

Definition onServerEvent (state : EWebSocketServerState) (value : option string)
    (about : option IWebSocketServerSession) : M unit :=
  emit (OnServerEvent state value about).

(** *** The platform's sockets *)

(** [socket.readyState]; a handle outside the table reads as closed (no
    reachable instance holds one). *)
Definition readyStateOf (st : WebSocketServer) (sock : nat) : nat :=
  match connections st !! sock with
  | Some c => readyState c
  | None => CLOSED
  end.

Definition set_readyState (sock : nat) (v : nat) : M unit :=
  modify (fun st =>
    with_connections
      (alter (fun c => mkConnection v (sessionIdVar c) (requested c)) sock (connections st)) st).

(** [socket.send(message)]: throws while the socket is connecting;
    otherwise the call goes through (the platform drops the data of a
    closing or closed socket). *)
Definition socket_send (sock : nat) (message : string) : M unit :=
  let! st := get in
  if readyStateOf st sock =? CONNECTING
  then throw (InvalidStateError "readyState not OPEN")
  else emit (SocketSend sock message).

(** The number of bytes of the UTF-8 encoding of a string of code units in
    the byte range: one for a unit below 128, two for the others. *)
Fixpoint utf8_length (s : string) : nat :=
  match s with
  | EmptyString => 0
  | String c rest => (if nat_of_ascii c <? 128 then 1 else 2) + utf8_length rest
  end.

(** What [socket.close(code, reason)] refuses: a code that is neither 1000
    nor in 3000..4999, then a reason of more than 123 bytes. *)
Definition close_rejection (code : option nat) (reason : option string) : option exception :=
  let code_ok :=
    match code with
    | Some n => (n =? 1000) || ((3000 <=? n) && (n <=? 4999))
    | None => true
    end in
  let reason_ok :=
    match reason with
    | Some r => utf8_length r <=? 123
    | None => true
    end in
  if negb code_ok then
    Some (DOMException "InvalidAccessError"
            "The close code must be either 1000 or in the range of 3000 to 4999")
  else if negb reason_ok then
    Some (DOMException "SyntaxError" "The close reason may not be longer than 123 bytes")
  else None.

(** [socket.close(code, reason)]: throws on arguments it refuses, before
    anything else happens; otherwise starts the closing handshake unless
    the socket is already closing or closed. *)
Definition socket_close (sock : nat) (code : option nat) (reason : option string) : M unit :=
  match close_rejection code reason with
  | Some e => throw e
  | None =>
      let! st := get in
      let state := readyStateOf st sock in
      emit (SocketClose sock code reason) >>
      if (state =? CLOSING) || (state =? CLOSED) then ret tt
      else set_readyState sock CLOSING
  end.

(** ** The request handler and the socket callbacks *)

(** The sub-protocol list the handler derives from the request:
    [(headers.get('sec-websocket-protocol') ?? '').split(',')
       .map(it => it.trim()).filter(it => it.length)]. *)
Definition requestedSubprotocols (req : Request) : list string :=
  let secWebsocketProtocol := default EmptyString (secWebsocketProtocol req) in
  List.filter (fun it => negb (String.length it =? 0))
    (map (fun it => trim it) (split "," secWebsocketProtocol)).

(** What [Deno.upgradeWebSocket] does with a request is the platform's
    decision; each handler run is told the outcome. *)
Inductive upgrade_result : Type :=
| Upgraded
| UpgradeThrows (e : string).

(** [Deno.upgradeWebSocket(req, {protocol})]: records the offered protocol,
    then throws or returns a new socket, which starts out connecting. *)
Definition upgradeWebSocket (outcome : upgrade_result) (protocol : option string) : M nat :=
  emit (UpgradeWebSocket protocol) >>
  match outcome with
  | UpgradeThrows e => throw (Thrown e)
  | Upgraded =>
      let! st := get in
      let sock := length (connections st) in
      modify (with_connections (connections st ++ [mkConnection CONNECTING EmptyString []])) >>
      ret sock
  end.

(** [let sessionId = ''] together with the four callback assignments: the
    callbacks of [sock] from now on see these two variables. *)
Definition install_callbacks (sock : nat) (subprotocols : list string) : M unit :=
  modify (fun st =>
    with_connections
      (alter (fun c => mkConnection (readyState c) EmptyString subprotocols) sock (connections st)) st).

Definition handler (req : Request) (outcome : upgrade_result) : M Response :=
  let subprotocols := requestedSubprotocols req in
  log LogD "Client Protocols" [(EmptyString, Strs subprotocols)] >>
  if negb (bool_decide (upgrade req = Some "websocket")) then
    log LogW "Connection failed to upgrade" [("upgrade", optStr (upgrade req))] >>
    ret (mkResponse 501)
  else
    try_catch
      (let! sock := upgradeWebSocket outcome (head subprotocols) in
       log LogV "Connection was upgraded"
           [("upgrade", optStr (upgrade req)); ("subprotocols", Strs subprotocols)] >>
       install_callbacks sock subprotocols >>
       ret (mkResponse 101))
      (fun e =>
         log LogW "Connection failed to upgrade"
             [(EmptyString, match e with
                            | TypeError m | InvalidStateError m | DOMException _ m | Thrown m =>
                                Str m
                            end)] >>
         ret (mkResponse 500)).

(** Runs a callback of [sock] with the variables it closes over; a socket
    that was never created has no callbacks. *)
Definition with_closure (sock : nat) (k : connection -> M unit) : M unit :=
  let! st := get in
  match connections st !! sock with
  | Some c => k c
  | None => ret tt
  end.

(** [socket.onopen]; [uuid] is the value [crypto.randomUUID()] returns. *)
Definition socket_onopen (sock : nat) (uuid : string) : M unit :=
  with_closure sock (fun c =>
    let sessionId := uuid in
    modify (fun st =>
      with_connections
        (alter (fun c => mkConnection (readyState c) sessionId (requested c)) sock
               (connections st)) st) >>
    modify (fun st =>
      with_sessions (set_property (sessions st) sessionId (mkSession sock (requested c))) st) >>
    onServerEvent ClientConnected None (Some (mkServerSession sessionId (requested c))) >>
    log LogI "Client connected, session registered"
        [("sessionId", Str sessionId); ("subprotocols", Strs (requested c)); ("type", Str "open")]).

(** [socket.onclose] *)
Definition socket_onclose (sock : nat) (code : nat) : M unit :=
  with_closure sock (fun c =>
    let sessionId := sessionIdVar c in
    modify (fun st => with_sessions (delete_property (sessions st) sessionId) st) >>
    onServerEvent ClientDisconnected None (Some (mkServerSession sessionId (requested c))) >>
    log LogI "Client disconnected, session removed"
        [("sessionId", Str sessionId); ("subprotocols", Strs (requested c));
         ("type", Str "close"); ("code", Num code)]).

(** [socket.onerror]; the [debug] field of the log entry, the event object
    itself, is left out. *)
Definition socket_onerror (sock : nat) (type : string) (message : option string) : M unit :=
  with_closure sock (fun c =>
    let sessionId := sessionIdVar c in
    onServerEvent Error (Some type) (Some (mkServerSession sessionId (requested c))) >>
    log LogE "Server error"
        [("sessionId", Str sessionId); ("subprotocols", Strs (requested c));
         ("type", Str type); ("message", optStr message)]).

(** [socket.onmessage] *)
Definition socket_onmessage (sock : nat) (data : string) : M unit :=
  with_closure sock (fun c =>
    let sessionId := sessionIdVar c in
    emit (OnMessageReceived data (mkServerSession sessionId (requested c))) >>
    log LogV "Message received"
        [("sessionId", Str sessionId); ("subprotocols", Strs (requested c));
         ("type", Str "message"); ("message", Str data)]).

(** ** Sending *)

(** [#unreadyStates] *)
Definition unreadyStates : list nat := [CONNECTING; CLOSING; CLOSED].

(** [a !== b] on values that are a string or [undefined]. *)
Definition strictNe (a b : option string) : bool := negb (bool_decide (a = b)).

(** The loop of [checkSubprotocols] from index [i] on; [rest] is the part
    of [withSubprotocols] from that index. *)
Fixpoint checkSubprotocolsFrom (i : nat) (rest : TWebSocketServerSessionSubprotocols)
    (session : session) : bool :=
  match rest with
  | [] => true
  | matchValue :: rest' =>
      let sessionValue := subprotocols session !! i in
      if strictNe matchValue None && strictNe matchValue sessionValue then false
      else checkSubprotocolsFrom (S i) rest' session
  end.

Definition checkSubprotocols (withSubprotocols : option TWebSocketServerSessionSubprotocols)
    (session : session) : bool :=
  match withSubprotocols with
  | None => true
  | Some filter => checkSubprotocolsFrom 0 filter session
  end.

Definition sendMessage (message toSessionId : string)
    (withSubprotocols : option TWebSocketServerSessionSubprotocols) : M bool :=
  let! st := get in
  match get_property (sessions st) toSessionId with
  | Undefined => ret false
  | Inherited =>
      (* [session] is truthy but [session.socket] is undefined *)
      throw (TypeError "Cannot read properties of undefined (reading 'readyState')")
  | Own session =>
      if negb (includes unreadyStates (readyStateOf st (socket session)))
         && checkSubprotocols withSubprotocols session
      then
        socket_send (socket session) message >>
        log LogV "Sent message" [("toSessionId", Str toSessionId); ("message", Str message)] >>
        ret true
      else ret false
  end.

(** [for (const sessionId of ids) if (this.sendMessage(..)) sent++] *)
Fixpoint sendToEach (message : string) (ids : list string)
    (subprotocols : option TWebSocketServerSessionSubprotocols) (sent : nat) : M nat :=
  match ids with
  | [] => ret sent
  | sessionId :: rest =>
      let! ok := sendMessage message sessionId subprotocols in
      sendToEach message rest subprotocols (if ok then S sent else sent)
  end.

Definition sendMessageToAll (message : string)
    (subprotocols : option TWebSocketServerSessionSubprotocols) : M nat :=
  let! st := get in
  let! sent := sendToEach message (keys (sessions st)) subprotocols 0 in
  log LogV "Message sent to all" [("sent", Num sent); ("message", Str message)] >>
  ret sent.

(** The loop of [sendMessageToOthers], with its [sessionId != mySessionId] test. *)
Fixpoint sendToEachBut (message mySessionId : string) (ids : list string)
    (subprotocols : option TWebSocketServerSessionSubprotocols) (sent : nat) : M nat :=
  match ids with
  | [] => ret sent
  | sessionId :: rest =>
      if negb (String.eqb sessionId mySessionId) then
        let! ok := sendMessage message sessionId subprotocols in
        sendToEachBut message mySessionId rest subprotocols (if ok then S sent else sent)
      else sendToEachBut message mySessionId rest subprotocols sent
  end.

Definition sendMessageToOthers (message mySessionId : string)
    (subprotocols : option TWebSocketServerSessionSubprotocols) : M nat :=
  let! st := get in
  let! sent := sendToEachBut message mySessionId (keys (sessions st)) subprotocols 0 in
  log LogV "Message sent to others"
      [("sent", Num sent); ("message", Str message); ("mySessionId", Str mySessionId)] >>
  ret sent.

Definition sendMessageToGroup (message : string) (toSessionIds : list string)
    (subprotocols : option TWebSocketServerSessionSubprotocols) : M nat :=
  let! sent := sendToEach message toSessionIds subprotocols 0 in
  log LogV "Message sent to group"
      [("sent", Num sent); ("message", Str message); ("sessionIds", Strs toSessionIds)] >>
  ret sent.

Definition disconnectSession (sessionId : string) (code : option nat) (reason : option string)
    : M bool :=
  let! st := get in
  match get_property (sessions st) sessionId with
  | Undefined =>
      (* [session] is undefined and [session.socket] is read *)
      throw (TypeError "Cannot read properties of undefined (reading 'socket')")
  | Inherited => ret false (* [session.socket] is undefined, hence falsy *)
  | Own session =>
      socket_close (socket session) code reason >>
      modify (fun st => with_sessions (delete_property (sessions st) sessionId) st) >>
      log LogV "Session disconnected"
          [("sessionId", Str sessionId); ("code", optNum code); ("reason", optStr reason)] >>
      ret true
  end.

(** ** Lifecycle *)

(** Whether [Deno.serve] binds the port is the platform's decision; each
    run of code that may reach it is told the outcome. *)
Inductive serve_result : Type :=
| Bound
| ServeThrows (e : string).

Definition park (k : continuation) : M unit :=
  modify (fun st => with_suspended (suspended st ++ [k]) st).

(** [this.#server.shutdown()] *)
Definition listener_shutdown (listener : nat) : M unit :=
  emit (ListenerShutdown listener).

(** The [try]/[catch] block of [#start]: bind a new listener and subscribe
    to its [finished] promise, or report why that was not possible. *)
Definition serve (outcome : serve_result) : M unit :=
  let! st := get in
  emit (DenoServe (port (options st)) (hostname (options st))) >>
  match outcome with
  | Bound =>
      modify (fun st => with_listeners (S (listeners st)) (with_server (Some (listeners st)) st))
  | ServeThrows e =>
      onServerEvent Error (Some e) None >>
      log LogE "Unable to start server" [("port", Num (port (options st))); ("error", Str e)]
  end.

(** What is left of [#start] once it is past its [await], and then of the
    caller that awaits it. *)
Definition start_serve (fromRestart : bool) (outcome : serve_result) : M unit :=
  serve outcome >>
  if fromRestart then park RestartAfterStart else ret tt.

(** [#start], up to its first suspension. *)
Definition start (fromRestart : bool) (outcome : serve_result) : M unit :=
  let! st := get in
  match server st with
  | Some listener =>
      listener_shutdown listener >> park (StartAfterTeardown fromRestart)
  | None => start_serve fromRestart outcome
  end.

(** [restart], up to its first suspension. *)
Definition restart (outcome : serve_result) : M unit :=
  modify (with_shouldShutDown false) >>
  let! st := get in
  log LogI "Restarting server" [("port", Num (port (options st)))] >>
  start true outcome.

(** [shutdown], up to its suspension. *)
Definition shutdown : M unit :=
  modify (with_shouldShutDown true) >>
  let! st := get in
  log LogI "Shutting down server" [("port", Num (port (options st)))] >>
  match server st with
  | Some listener => listener_shutdown listener
  | None => ret tt
  end >>
  park ShutdownAfterTeardown.

(** The callback given to [this.#server.finished.then]. *)
Definition on_finished (outcome : serve_result) : M unit :=
  let! st := get in
  if negb (shouldShutDown st) then
    onServerEvent Error (Some "Server finished unexpectedly") None >>
    log LogW "Server finished unexpectedly" [] >>
    if keepAlive (options st) then restart outcome else ret tt
  else ret tt.

(** A parked continuation, run to its next suspension or to its end. *)
Definition resume (k : continuation) (outcome : serve_result) : M unit :=
  match k with
  | StartAfterTeardown fromRestart => start_serve fromRestart outcome
  | RestartAfterStart => onServerEvent ServerStarted None None
  | ShutdownAfterTeardown => onServerEvent ServerShutdown None None
  end.

(** [new WebSocketServer(options)] *)
Definition initial (options : IWebSocketServerOptions) : WebSocketServer :=
  mkServer options None [] false [] 0 [] [].

Definition construct (options : IWebSocketServerOptions) (outcome : serve_result)
    : WebSocketServer :=
  snd (start false outcome (initial options)).

(** ** The instance as a machine driven from outside

    The owner calls the public methods; the platform delivers requests,
    socket events and listener completion, and resumes parked
    continuations.  The platform opens a socket once, while it is
    connecting, and closes it once; the other events may come at any time
    and in any order. *)
Inductive input : Type :=
| Incoming (req : Request) (outcome : upgrade_result)
| SocketOpened (sock : nat) (uuid : string)
| SocketMessage (sock : nat) (data : string)
| SocketErrored (sock : nat) (type : string) (message : option string)
| SocketClosed (sock : nat) (code : nat)
| CallSendMessage (message toSessionId : string)
                  (withSubprotocols : option TWebSocketServerSessionSubprotocols)
| CallSendMessageToAll (message : string)
                       (subprotocols : option TWebSocketServerSessionSubprotocols)
| CallSendMessageToOthers (message mySessionId : string)
                          (subprotocols : option TWebSocketServerSessionSubprotocols)
| CallSendMessageToGroup (message : string) (toSessionIds : list string)
                         (subprotocols : option TWebSocketServerSessionSubprotocols)
| CallDisconnectSession (sessionId : string) (code : option nat) (reason : option string)
| CallRestart (outcome : serve_result)
| CallShutdown
| ListenerFinished (outcome : serve_result)
| Resume (i : nat) (outcome : serve_result).

Definition exec {A} (c : M A) (st : WebSocketServer) : WebSocketServer := snd (c st).

Definition step (i : input) (st : WebSocketServer) : WebSocketServer :=
  match i with
  | Incoming req outcome => exec (handler req outcome) st
  | SocketOpened sock uuid =>
      if bool_decide (sock < length (connections st)) && (readyStateOf st sock =? CONNECTING)
      then exec (set_readyState sock OPEN >> socket_onopen sock uuid) st
      else st
  | SocketMessage sock data => exec (socket_onmessage sock data) st
  | SocketErrored sock type message => exec (socket_onerror sock type message) st
  | SocketClosed sock code =>
      if bool_decide (sock < length (connections st)) && negb (readyStateOf st sock =? CLOSED)
      then exec (set_readyState sock CLOSED >> socket_onclose sock code) st
      else st
  | CallSendMessage message toSessionId withSubprotocols =>
      exec (sendMessage message toSessionId withSubprotocols) st
  | CallSendMessageToAll message subprotocols =>
      exec (sendMessageToAll message subprotocols) st
  | CallSendMessageToOthers message mySessionId subprotocols =>
      exec (sendMessageToOthers message mySessionId subprotocols) st
  | CallSendMessageToGroup message toSessionIds subprotocols =>
      exec (sendMessageToGroup message toSessionIds subprotocols) st
  | CallDisconnectSession sessionId code reason =>
      exec (disconnectSession sessionId code reason) st
  | CallRestart outcome => exec (restart outcome) st
  | CallShutdown => exec shutdown st
  | ListenerFinished outcome => exec (on_finished outcome) st
  | Resume i outcome =>
      match suspended st !! i with
      | Some k => exec (resume k outcome) (with_suspended (delete i (suspended st)) st)
      | None => st
      end
  end.

(** The instance after a sequence of inputs, oldest first. *)
Definition run (inputs : list input) (st : WebSocketServer) : WebSocketServer :=
  fold_left (fun st i => step i st) inputs st.

(** The identifiers handed out so far: one per "client connected" event. *)
Fixpoint issued (t : list effect) : list string :=
  match t with
  | [] => []
  | OnServerEvent ClientConnected _ (Some about) :: rest => sessionId about :: issued rest
  | _ :: rest => issued rest
  end.

(** The values [crypto.randomUUID()] is made to return by a sequence of inputs. *)
Fixpoint uuids (inputs : list input) : list string :=
  match inputs with
  | [] => []
  | SocketOpened _ uuid :: rest => uuid :: uuids rest
  | _ :: rest => uuids rest
  end.

(** ** Vocabulary of the specification *)

(** *** The sub-protocol list, in the words of the specification

    "Comma-separated tokens, trimmed, empty tokens discarded, order
    preserved": the header is cut at every comma, each piece loses the white
    space around it, and the pieces that remain non-empty are kept in
    their order. *)

Fixpoint all_white (s : string) : bool :=
  match s with
  | EmptyString => true
  | String c rest => is_white_space c && all_white rest
  end.

Definition starts_white (s : string) : bool :=
  match s with
  | EmptyString => false
  | String c _ => is_white_space c
  end.

Fixpoint ends_white (s : string) : bool :=
  match s with
  | EmptyString => false
  | String c EmptyString => is_white_space c
  | String _ rest => ends_white rest
  end.

Fixpoint comma_free (s : string) : bool :=
  match s with
  | EmptyString => true
  | String c rest => negb (Ascii.eqb c ",") && comma_free rest
  end.

(** [t] is [s] without the white space around it. *)
Definition trimmed_of (t s : string) : Prop :=
  exists before after,
    s = (before ++ t ++ after)%string
    /\ all_white before = true /\ all_white after = true
    /\ starts_white t = false /\ ends_white t = false.

(** [pieces] are the comma-separated pieces of [header]. *)
Definition pieces_of (header : string) (pieces : list string) : Prop :=
  pieces <> [] /\ Forall (fun p => comma_free p = true) pieces
  /\ String.concat "," pieces = header.

(** Dropping the empty entries of a list of tokens keeps the others in order. *)
Fixpoint discard_empty (tokens : list string) : list string :=
  match tokens with
  | [] => []
  | EmptyString :: rest => discard_empty rest
  | t :: rest => t :: discard_empty rest
  end.

Definition subprotocol_list_spec (header : string) (l : list string) : Prop :=
  exists pieces tokens,
    pieces_of header pieces /\ Forall2 trimmed_of tokens pieces
    /\ l = discard_empty tokens.

(** The protocols offered to [Deno.upgradeWebSocket], in call order. *)
Fixpoint offered (t : list effect) : list (option string) :=
  match t with
  | [] => []
  | UpgradeWebSocket protocol :: rest => protocol :: offered rest
  | _ :: rest => offered rest
  end.

(** *** Sending *)

Definition returned_true (r : completion bool * WebSocketServer) : bool :=
  match fst r with
  | Normal true => true
  | _ => false
  end.

(** The sessions [sendMessage] would deliver to in [st]. *)
Definition would_send (st : WebSocketServer) (message : string)
    (filter : option TWebSocketServerSessionSubprotocols) (id : string) : bool :=
  returned_true (sendMessage message id filter st).

(** What one successful [sendMessage] adds to the trace. *)
Definition delivery (st : WebSocketServer) (message id : string) (s : session) : list effect :=
  [ SocketSend (socket s) message;
    LogCall LogV (tag st) "Sent message" [("toSessionId", Str id); ("message", Str message)] ].

(** What a computation appended to the trace of [st], given where it ended. *)
Definition added (st st' : WebSocketServer) : list effect :=
  drop (length (trace st)) (trace st').

(** What applying [sendMessage] to each of [ids] appends, every call seeing
    the registry and the sockets of [st]. *)
Definition deliveries (message : string)
    (filter : option TWebSocketServerSessionSubprotocols)
    (st : WebSocketServer) (ids : list string) : list effect :=
  flat_map (fun id => added st (snd (sendMessage message id filter st))) ids.

(** The trace entries that address a message to [id]. *)
Definition addressed_to (id : string) (e : effect) : Prop :=
  exists tg message,
    e = LogCall LogV tg "Sent message" [("toSessionId", Str id); ("message", Str message)].

(** *** A running example: three clients

    One instance with keep-alive on; three upgrade requests offering
    "chatv1", "chatv1, v2" and nothing; the three sockets opened. *)
Definition example_options : IWebSocketServerOptions :=
  mkOptions "main" 3000 "127.0.0.1" true.

Definition upgrade_request (protocols : option string) : Request :=
  mkRequest (Some "websocket") protocols.

Definition three_clients : WebSocketServer :=
  run [ Incoming (upgrade_request (Some "chatv1")) Upgraded;
        Incoming (upgrade_request (Some "chatv1, v2")) Upgraded;
        Incoming (upgrade_request None) Upgraded;
        SocketOpened 0 "S1"; SocketOpened 1 "S2"; SocketOpened 2 "S3" ]
      (construct example_options Bound).

(** *** What a computation leaves alone *)

(** [c] relates every state to the state it ends in by [R]. *)
Definition respects (R : WebSocketServer -> WebSocketServer -> Prop) {A} (c : M A) : Prop :=
  forall st, R st (snd (c st)).

(** Same registry, same sockets, same identifiers handed out. *)
Definition same_world (st st' : WebSocketServer) : Prop :=
  sessions st' = sessions st /\ connections st' = connections st
  /\ issued (trace st') = issued (trace st).

(** Same configuration and same [#shouldShutDown]. *)
Definition same_flag (st st' : WebSocketServer) : Prop :=
  options st' = options st /\ shouldShutDown st' = shouldShutDown st.

Definition calls_restart (i : input) : bool :=
  match i with CallRestart _ => true | _ => false end.

Definition calls_shutdown (i : input) : bool :=
  match i with CallShutdown => true | _ => false end.

(** What the [finished] callback reports before it decides on a restart. *)
Definition unexpected_termination (st : WebSocketServer) : list effect :=
  [ OnServerEvent Error (Some "Server finished unexpectedly") None;
    LogCall LogW (tag st) "Server finished unexpectedly" [] ].

(** Only a "client connected" event hands out an identifier. *)
Definition hands_out (e : effect) : bool :=
  match e with
  | OnServerEvent ClientConnected _ (Some _) => true
  | _ => false
  end.

(** *** Identifiers and connections

    [used] lists the values [crypto.randomUUID()] has returned so far: the
    identifiers handed out are among them, in order, and every registry
    entry points at an opened socket whose callbacks hold the entry's key. *)
Record consistent (used : list string) (st : WebSocketServer) : Prop := mkConsistent {
  issued_used : sublist (issued (trace st)) used;
  registered_opened : forall id s,
    own_property (sessions st) id = Some s ->
    exists c, connections st !! socket s = Some c
              /\ readyState c <> CONNECTING /\ sessionIdVar c = id
}.

(** Every socket of [old] is still there in [new], its callbacks hold the
    same identifier, and it has not gone back to connecting. *)
Definition evolves (old new : list connection) : Prop :=
  forall sock c,
    old !! sock = Some c ->
    exists c', new !! sock = Some c'
               /\ sessionIdVar c' = sessionIdVar c
               /\ (readyState c <> CONNECTING -> readyState c' <> CONNECTING).

(** Every socket of [new] either holds no identifier or was already in
    [old] holding the same one, and a socket that is connecting was
    connecting before. *)
Definition descends (old new : list connection) : Prop :=
  forall sock c',
    new !! sock = Some c' ->
    sessionIdVar c' = EmptyString
    \/ exists c, old !! sock = Some c
                 /\ sessionIdVar c = sessionIdVar c'
                 /\ (readyState c' = CONNECTING -> readyState c = CONNECTING).

(** The [sessionId] variable of a socket's callbacks is the empty string
    until the socket opens; once set it is a value [crypto.randomUUID()]
    returned, and no other socket's callbacks hold that value. *)
Record held_once (used : list string) (st : WebSocketServer) : Prop := mkHeldOnce {
  unopened_blank : forall sock c,
    connections st !! sock = Some c -> readyState c = CONNECTING ->
    sessionIdVar c = EmptyString;
  held_used : forall sock c,
    connections st !! sock = Some c -> sessionIdVar c <> EmptyString ->
    sessionIdVar c ∈ used;
  held_by_one : forall sock1 sock2 c1 c2,
    connections st !! sock1 = Some c1 -> connections st !! sock2 = Some c2 ->
    sessionIdVar c1 <> EmptyString -> sessionIdVar c1 = sessionIdVar c2 ->
    sock1 = sock2
}.

(** *** Further vocabulary *)

(** The trace entries a send can leave: the socket call and verbose log lines. *)
Definition send_or_log (e : effect) : bool :=
  match e with
  | SocketSend _ _ => true
  | LogCall LogV _ _ _ => true
  | _ => false
  end.

(** [st'] is [st] with sends and verbose log lines appended, nothing else. *)
Definition only_sends (st st' : WebSocketServer) : Prop :=
  exists t, st' = with_trace (trace st ++ t) st /\ Forall (fun e => send_or_log e = true) t.

(** A token as the handler keeps it: not empty, no comma, no white space
    around it. *)
Definition clean_token (t : string) : Prop :=
  t <> EmptyString /\ comma_free t = true
  /\ starts_white t = false /\ ends_white t = false.

(** The pieces of a header written with a comma and a space between tokens. *)
Definition spaced_pieces (tokens : list string) : list string :=
  match tokens with
  | [] => [EmptyString]
  | t :: rest => t :: map (String " ") rest
  end.

(** What a failed bind reports. *)
Definition bind_report (st : WebSocketServer) (outcome : serve_result) : list effect :=
  match outcome with
  | Bound => []
  | ServeThrows e =>
      [ OnServerEvent Error (Some e) None;
        LogCall LogE (tag st) "Unable to start server"
          [("port", Num (port (options st))); ("error", Str e)] ]
  end.

(** What a restart of an instance holding listener [l] adds to the trace,
    from the call to the end of its last continuation. *)
Definition restart_report (st : WebSocketServer) (l : nat) (outcome : serve_result)
    : list effect :=
  [ LogCall LogI (tag st) "Restarting server" [("port", Num (port (options st)))];
    ListenerShutdown l;
    DenoServe (port (options st)) (hostname (options st)) ]
  ++ bind_report st outcome ++ [OnServerEvent ServerStarted None None].

(** An instance that holds a listener still holds one. *)
Definition keeps_listener (st st' : WebSocketServer) : Prop :=
  is_Some (server st) -> is_Some (server st').


(** What the close callback tells the owner and the log. *)
Definition disconnected (st : WebSocketServer) (id : string) (c : connection) (code : nat)
    : list effect :=
  [ OnServerEvent ClientDisconnected None (Some (mkServerSession id (requested c)));
    LogCall LogI (tag st) "Client disconnected, session removed"
      [("sessionId", Str id); ("subprotocols", Strs (requested c));
       ("type", Str "close"); ("code", Num code)] ].

(** What the open callback tells the owner and the log. *)
Definition connected (st : WebSocketServer) (id : string) (c : connection) : list effect :=
  [ OnServerEvent ClientConnected None (Some (mkServerSession id (requested c)));
    LogCall LogI (tag st) "Client connected, session registered"
      [("sessionId", Str id); ("subprotocols", Strs (requested c)); ("type", Str "open")] ].

(** ** The sub-protocol filter *)

Lemma strictNe_false (a b : option string) : strictNe a b = false <-> a = b.
Proof.
  unfold strictNe. rewrite negb_false_iff, bool_decide_eq_true. reflexivity.
Qed.

Lemma strictNe_true (a b : option string) : strictNe a b = true <-> a <> b.
Proof.
  unfold strictNe. rewrite negb_true_iff, bool_decide_eq_false. reflexivity.
Qed.

(** The loop accepts exactly when every defined entry it visits equals the
    session's entry at the same index. *)
Lemma checkSubprotocolsFrom_true (s : session) (f : TWebSocketServerSessionSubprotocols) :
  forall i,
    checkSubprotocolsFrom i f s = true <->
    forall j m, f !! j = Some (Some m) -> subprotocols s !! (i + j) = Some m.
Proof.
  induction f as [|matchValue rest IH]; intros i; simpl.
  - split; [intros _ j m Hj; destruct j; discriminate | reflexivity].
  - destruct matchValue as [m0|].
    + destruct (strictNe (Some m0) (subprotocols s !! i)) eqn:Hne; simpl.
      * apply strictNe_true in Hne. split; [discriminate|].
        intros H. specialize (H 0 m0 eq_refl). rewrite Nat.add_0_r in H. congruence.
      * apply strictNe_false in Hne. rewrite IH. split.
        -- intros H [|j] m Hj; simpl in Hj.
           ++ rewrite Nat.add_0_r. congruence.
           ++ replace (i + S j) with (S i + j) by lia. auto.
        -- intros H j m Hj. replace (S i + j) with (i + S j) by lia. apply H. exact Hj.
    + simpl. rewrite IH. split.
      * intros H [|j] m Hj; simpl in Hj; [discriminate|].
        replace (i + S j) with (S i + j) by lia. auto.
      * intros H j m Hj. replace (S i + j) with (i + S j) by lia. apply H. exact Hj.
Qed.

Lemma checkSubprotocols_true (s : session) (f : TWebSocketServerSessionSubprotocols) :
  checkSubprotocols (Some f) s = true <->
  forall i m, f !! i = Some (Some m) -> subprotocols s !! i = Some m.
Proof. unfold checkSubprotocols. apply checkSubprotocolsFrom_true. Qed.

(** C2. For a filter no longer than the session's negotiated list, the
    match used by [sendMessage] succeeds exactly when every defined
    position of the filter equals the same position of the list; an
    omitted filter matches every session; and [[A, undefined]] matches
    [[A, B]] and [[A, C]] but not [[X, B]] when [X] differs from [A]. *)
Theorem checkSubprotocols_positional
    (s : session) (f : TWebSocketServerSessionSubprotocols) (sock : nat) (A B C X : string) :
  length f <= length (subprotocols s) ->
  X <> A ->
  (checkSubprotocols (Some f) s = true <->
     forall i, i < length f ->
       match f !! i with
       | Some (Some m) => subprotocols s !! i = Some m
       | _ => True
       end)
  /\ checkSubprotocols None s = true
  /\ checkSubprotocols (Some [Some A; None]) (mkSession sock [A; B]) = true
  /\ checkSubprotocols (Some [Some A; None]) (mkSession sock [A; C]) = true
  /\ checkSubprotocols (Some [Some A; None]) (mkSession sock [X; B]) = false.
Proof.
  intros Hlen HX. split; [|split; [reflexivity|]].
  - rewrite checkSubprotocols_true. split.
    + intros H i Hi. destruct (f !! i) as [[m|]|] eqn:Hf; auto.
    + intros H i m Hf. specialize (H i (lookup_lt_Some _ _ _ Hf)).
      rewrite Hf in H. exact H.
  - assert (HAA : strictNe (Some A) (Some A) = false) by (apply strictNe_false; reflexivity).
    assert (HAX : strictNe (Some A) (Some X) = true)
      by (apply strictNe_true; congruence).
    cbn. rewrite HAA, HAX. cbn. auto.
Qed.

Lemma checkSubprotocols_positional_witness :
  checkSubprotocols (Some [Some "chatv1"; None]) (mkSession 0 ["chatv1"; "v2"]) = true
  /\ checkSubprotocols (Some [Some "A"; None]) (mkSession 7 ["X"; "B"]) = false.
Proof.
  pose proof (checkSubprotocols_positional
                (mkSession 0 ["chatv1"; "v2"]) [Some "chatv1"; None] 7 "A" "B" "C" "X") as H.
  destruct H as (Hiff & _ & _ & _ & Hno).
  - simpl. lia.
  - discriminate.
  - split; [|exact Hno].
    apply Hiff. intros i Hi.
    destruct i as [|[|i]]; simpl in *; [reflexivity | exact I | lia].
Defined.

Lemma lookup_padded (p : list string) (n i : nat) (m : string) :
  (map Some p ++ replicate n None) !! i = Some (Some m) -> p !! i = Some m.
Proof.
  revert i. induction p as [|x rest IH]; intros i; simpl.
  - intros H. apply lookup_replicate in H. destruct H as [H _]. discriminate.
  - destruct i as [|i]; simpl; [congruence | apply IH].
Qed.

(** C10. With a filter longer than the session's list the match is still a
    total function of its two arguments.  An index at or beyond the
    list's length reads [undefined] from the list: a defined entry there
    makes the match fail, and an undefined entry there always matches, so
    that when every entry beyond the list is undefined the outcome is
    that of the filter cut to the list's length; it is a match whenever
    the defined entries agree with the list, and in particular the list
    itself followed by any number of undefined entries matches. *)
Theorem checkSubprotocols_beyond_list
    (s : session) (f : TWebSocketServerSessionSubprotocols) (n : nat) :
  length (subprotocols s) < length f ->
  (forall i m, length (subprotocols s) <= i -> f !! i = Some (Some m) ->
     checkSubprotocols (Some f) s = false)
  /\ ((forall i, length (subprotocols s) <= i -> i < length f -> f !! i = Some None) ->
      checkSubprotocols (Some f) s
      = checkSubprotocols (Some (take (length (subprotocols s)) f)) s)
  /\ ((forall i, length (subprotocols s) <= i -> i < length f -> f !! i = Some None) ->
      (forall i m, i < length (subprotocols s) -> f !! i = Some (Some m) ->
         subprotocols s !! i = Some m) ->
      checkSubprotocols (Some f) s = true)
  /\ checkSubprotocols (Some (map Some (subprotocols s) ++ replicate (S n) None)) s = true
  /\ checkSubprotocols (Some (replicate (length f) None)) s = true.
Proof.
  intros Hlen. split; [|split; [|split; [|split]]].
  - intros i m Hi Hf.
    destruct (checkSubprotocols (Some f) s) eqn:Hc; [|reflexivity].
    rewrite checkSubprotocols_true in Hc. specialize (Hc i m Hf).
    apply lookup_lt_Some in Hc. lia.
  - intros Hundef.
    destruct (checkSubprotocols (Some (take _ f)) s) eqn:Hc.
    + rewrite checkSubprotocols_true in *. intros i m Hf.
      destruct (decide (i < length (subprotocols s))) as [Hi|Hi].
      * apply Hc. rewrite lookup_take_lt by exact Hi. exact Hf.
      * rewrite Hundef in Hf; [discriminate | lia | eapply lookup_lt_Some; eauto].
    + destruct (checkSubprotocols (Some f) s) eqn:Hf; [|reflexivity].
      rewrite <- Hc. symmetry. rewrite checkSubprotocols_true in *.
      intros i m Hi. apply Hf.
      destruct (decide (i < length (subprotocols s))) as [Hlt|Hge].
      * rewrite lookup_take_lt in Hi by exact Hlt. exact Hi.
      * rewrite lookup_take_ge in Hi by lia. discriminate.
  - intros Hundef Hagree. apply checkSubprotocols_true. intros i m Hf.
    destruct (decide (i < length (subprotocols s))) as [Hi|Hi].
    + apply Hagree; assumption.
    + rewrite Hundef in Hf; [discriminate | lia | eapply lookup_lt_Some; eauto].
  - apply checkSubprotocols_true. intros i m. apply lookup_padded.
  - apply checkSubprotocols_true. intros i m Hf.
    apply lookup_replicate in Hf. destruct Hf as [Hf _]. discriminate.
Qed.

Lemma checkSubprotocols_beyond_list_witness :
  checkSubprotocols (Some [Some "chatv1"; None; Some "v3"]) (mkSession 0 ["chatv1"]) = false
  /\ checkSubprotocols (Some [Some "chatv1"; None; None]) (mkSession 0 ["chatv1"])
     = checkSubprotocols (Some [Some "chatv1"]) (mkSession 0 ["chatv1"])
  /\ checkSubprotocols (Some [Some "chatv1"; None; None]) (mkSession 0 ["chatv1"]) = true
  /\ checkSubprotocols (Some [None; None]) (mkSession 0 []) = true.
Proof.
  split; [|split; [|split]].
  - refine (proj1 (checkSubprotocols_beyond_list
                     (mkSession 0 ["chatv1"]) [Some "chatv1"; None; Some "v3"] 0 _)
                  2 "v3" _ _); simpl; (lia || reflexivity).
  - refine (proj1 (proj2 (checkSubprotocols_beyond_list
                            (mkSession 0 ["chatv1"]) [Some "chatv1"; None; None] 0 _)) _);
      simpl; [lia|].
    intros i Hge Hlt. destruct i as [|[|[|i]]]; simpl in *; (reflexivity || lia).
  - refine (proj1 (proj2 (proj2 (checkSubprotocols_beyond_list
                                   (mkSession 0 ["chatv1"]) [Some "chatv1"; None; None] 0 _)))
                  _ _); simpl; [lia | |].
    + intros i Hge Hlt. destruct i as [|[|[|i]]]; simpl in *; (reflexivity || lia).
    + intros i m Hi Hf. destruct i as [|i]; simpl in *; [congruence | lia].
  - refine (proj2 (proj2 (proj2 (proj2 (checkSubprotocols_beyond_list
                                          (mkSession 0 []) [None; None] 0 _)))));
      simpl; lia.
Defined.

(** ** The registry as a dictionary *)

Section Dictionary.
Context {A : Type}.
Implicit Types (o : dictionary A) (k : string) (v : A).

Lemma own_property_keys o k : k ∈ keys o <-> is_Some (own_property o k).
Proof.
  induction o as [|[k' v'] rest IH]; simpl.
  - split; [intros H; inversion H | intros [? ?]; discriminate].
  - destruct (String.eqb_spec k' k) as [->|Hne].
    + split; [eauto | intros _; left].
    + rewrite <- IH. split.
      * intros H. inversion H; subst; [congruence | assumption].
      * intros H. right. exact H.
Qed.

Lemma own_property_delete o k k' :
  own_property (delete_property o k) k'
  = if String.eqb k k' then None else own_property o k'.
Proof.
  induction o as [|[k0 v0] rest IH]; simpl.
  - destruct (String.eqb k k'); reflexivity.
  - destruct (String.eqb_spec k0 k) as [->|Hne]; simpl.
    + rewrite IH. destruct (String.eqb_spec k k'); reflexivity.
    + rewrite IH. destruct (String.eqb_spec k0 k') as [->|Hne'].
      * destruct (String.eqb_spec k k'); congruence.
      * reflexivity.
Qed.

Lemma keys_delete o k :
  keys (delete_property o k) = List.filter (fun k' => negb (String.eqb k' k)) (keys o).
Proof.
  induction o as [|[k0 v0] rest IH]; simpl; [reflexivity|].
  destruct (String.eqb k0 k); simpl; rewrite IH; reflexivity.
Qed.

Lemma own_property_set o k v k' :
  own_property (set_property o k v) k'
  = if String.eqb k k' then Some v else own_property o k'.
Proof.
  induction o as [|[k0 v0] rest IH]; simpl.
  - reflexivity.
  - destruct (String.eqb_spec k0 k) as [->|Hne]; simpl.
    + destruct (String.eqb k k'); reflexivity.
    + rewrite IH. destruct (String.eqb_spec k0 k') as [->|Hne'].
      * destruct (String.eqb_spec k k'); congruence.
      * reflexivity.
Qed.

Lemma keys_set_fresh o k v :
  own_property o k = None -> keys (set_property o k v) = keys o ++ [k].
Proof.
  induction o as [|[k0 v0] rest IH]; simpl; [reflexivity|].
  destruct (String.eqb k0 k); [discriminate|].
  intros H. simpl. rewrite (IH H). reflexivity.
Qed.

Lemma keys_set_present o k v :
  is_Some (own_property o k) -> keys (set_property o k v) = keys o.
Proof.
  induction o as [|[k0 v0] rest IH]; simpl; [intros [? ?]; discriminate|].
  destruct (String.eqb k0 k); [reflexivity|].
  intros H. simpl. rewrite (IH H). reflexivity.
Qed.

Lemma get_property_own o k v : get_property o k = Own v <-> own_property o k = Some v.
Proof.
  unfold get_property. destruct (own_property o k).
  - split; congruence.
  - destruct (existsb _ _); split; discriminate.
Qed.

Lemma get_property_delete_ne o k k' :
  k <> k' -> get_property (delete_property o k) k' = get_property o k'.
Proof.
  intros Hne. unfold get_property. rewrite own_property_delete.
  destruct (String.eqb_spec k k'); [congruence | reflexivity].
Qed.
End Dictionary.

(** ** Sending to one session *)

Lemma with_trace_trace t st : trace (with_trace t st) = t.
Proof. reflexivity. Qed.

Lemma with_trace_twice t t' st : with_trace t (with_trace t' st) = with_trace t st.
Proof. reflexivity. Qed.

Lemma with_trace_same st : with_trace (trace st) st = st.
Proof. destruct st; reflexivity. Qed.

Lemma added_with_trace st t : added st (with_trace (trace st ++ t) st) = t.
Proof. unfold added. simpl. apply drop_app_length. Qed.

Lemma added_same st : added st st = [].
Proof. unfold added. apply drop_all. Qed.

#[local] Arguments includes : simpl never.
#[local] Arguments checkSubprotocols : simpl never.

(** A state that is not one of the three unready ones is not [CONNECTING]. *)
Lemma ready_not_connecting (state : nat) :
  includes unreadyStates state = false -> (state =? CONNECTING) = false.
Proof.
  unfold includes, unreadyStates. simpl. intros H.
  apply orb_false_iff in H. tauto.
Qed.

(** [sendMessage] by cases on the property read and on its two tests. *)
Lemma sendMessage_cases message id filter st :
  sendMessage message id filter st =
  match get_property (sessions st) id with
  | Undefined => (Normal false, st)
  | Inherited =>
      (Throw (TypeError "Cannot read properties of undefined (reading 'readyState')"), st)
  | Own s =>
      if negb (includes unreadyStates (readyStateOf st (socket s)))
         && checkSubprotocols filter s
      then (Normal true, with_trace (trace st ++ delivery st message id s) st)
      else (Normal false, st)
  end.
Proof.
  unfold sendMessage, bind, get. simpl.
  destruct (get_property (sessions st) id) as [s| |]; try reflexivity.
  destruct (includes unreadyStates (readyStateOf st (socket s))) eqn:Hready; simpl;
    [reflexivity|].
  destruct (checkSubprotocols filter s); [|reflexivity].
  apply ready_not_connecting in Hready.
  unfold socket_send, log, emit, modify, bind, get, ret, readyStateOf in *. simpl.
  rewrite Hready. simpl. unfold delivery.
  rewrite <- app_assoc. reflexivity.
Qed.

(** The trace does not influence what [sendMessage] decides. *)
Lemma sendMessage_after_trace message id filter st t :
  sendMessage message id filter (with_trace (trace st ++ t) st)
  = let r := sendMessage message id filter st in
    (fst r, with_trace (trace st ++ t ++ added st (snd r)) st).
Proof.
  rewrite !sendMessage_cases. simpl.
  change (readyStateOf (with_trace (trace st ++ t) st)) with (readyStateOf st).
  destruct (get_property (sessions st) id) as [s| |]; simpl;
    rewrite ?added_same, ?app_nil_r; try reflexivity.
  destruct (negb _ && _); simpl.
  - rewrite added_with_trace, <- app_assoc. reflexivity.
  - rewrite added_same, app_nil_r. reflexivity.
Qed.

Lemma sendMessage_only_traces message id filter st :
  snd (sendMessage message id filter st)
  = with_trace (trace st ++ added st (snd (sendMessage message id filter st))) st.
Proof.
  rewrite sendMessage_cases.
  destruct (get_property (sessions st) id) as [s| |]; simpl;
    rewrite ?added_same, ?app_nil_r, ?with_trace_same; try reflexivity.
  destruct (negb _ && _); simpl.
  - rewrite added_with_trace. reflexivity.
  - rewrite added_same, app_nil_r, with_trace_same. reflexivity.
Qed.

(** On an own key of the registry [sendMessage] completes normally. *)
Lemma sendMessage_own_normal message id filter st :
  is_Some (own_property (sessions st) id) ->
  fst (sendMessage message id filter st) = Normal (would_send st message filter id).
Proof.
  intros [s Hs]. unfold would_send, returned_true.
  rewrite sendMessage_cases.
  apply get_property_own in Hs. rewrite Hs.
  destruct (negb _ && _); reflexivity.
Qed.

(** For every identifier that is neither a key of the registry nor the
    name of a member of [Object.prototype], [sendMessage] returns false
    and does nothing. *)
Lemma sendMessage_absent message id filter st :
  get_property (sessions st) id = Undefined ->
  sendMessage message id filter st = (Normal false, st).
Proof. intros H. rewrite sendMessage_cases, H. reflexivity. Qed.

(** For a registered identifier [sendMessage] sends and returns true exactly
    when the socket is in none of the three unready states and the filter
    matches; otherwise it returns false and does nothing. *)
Lemma sendMessage_present message id filter st s :
  own_property (sessions st) id = Some s ->
  (includes unreadyStates (readyStateOf st (socket s)) = false
   /\ checkSubprotocols filter s = true ->
   sendMessage message id filter st
   = (Normal true, with_trace (trace st ++ delivery st message id s) st))
  /\ (~ (includes unreadyStates (readyStateOf st (socket s)) = false
         /\ checkSubprotocols filter s = true) ->
      sendMessage message id filter st = (Normal false, st)).
Proof.
  intros Hs. apply get_property_own in Hs.
  rewrite sendMessage_cases, Hs.
  destruct (includes _ _), (checkSubprotocols filter s); simpl; split;
    intros H; try reflexivity; try (destruct H; discriminate); exfalso; apply H; auto.
Qed.

(** C4. [sendMessage] does raise for some identifiers that are not in the
    registry: on a new instance, whose registry is empty, the identifier
    "constructor" reads the inherited member of [Object.prototype], which
    is truthy and has no [socket], and the call ends in a [TypeError]
    instead of returning false. *)
Theorem sendMessage_throws_on_inherited_name
    (options : IWebSocketServerOptions) (outcome : serve_result) (message : string)
    (filter : option TWebSocketServerSessionSubprotocols) :
  own_property (sessions (construct options outcome)) "constructor" = None
  /\ fst (sendMessage message "constructor" filter (construct options outcome))
     = Throw (TypeError "Cannot read properties of undefined (reading 'readyState')").
Proof.
  assert (Hs : sessions (construct options outcome) = []).
  { unfold construct. destruct outcome; reflexivity. }
  rewrite sendMessage_cases, Hs. split; reflexivity.
Qed.

(** What [sendMessage] appends for one identifier: nothing, or one delivery. *)
Lemma sendMessage_added message id filter st :
  added st (exec (sendMessage message id filter) st) = []
  \/ exists s, own_property (sessions st) id = Some s
               /\ would_send st message filter id = true
               /\ added st (exec (sendMessage message id filter) st)
                  = delivery st message id s.
Proof.
  unfold exec, would_send, returned_true. rewrite sendMessage_cases.
  destruct (get_property (sessions st) id) as [s| |] eqn:Hget; simpl;
    try (left; apply added_same).
  apply get_property_own in Hget.
  destruct (negb _ && _); simpl.
  - right. exists s. rewrite added_with_trace. auto.
  - left. apply added_same.
Qed.

(** ** Sending to many sessions *)

Section Broadcast.
Variables (message : string) (filter : option TWebSocketServerSessionSubprotocols).

Lemma sendToEach_spec st :
  forall ids sent t,
    Forall (fun id => is_Some (own_property (sessions st) id)) ids ->
    sendToEach message ids filter sent (with_trace (trace st ++ t) st)
    = (Normal (sent + length (List.filter (would_send st message filter) ids)),
       with_trace (trace st ++ t ++ deliveries message filter st ids) st).
Proof.
  induction ids as [|id rest IH]; intros sent t Hown; simpl.
  - unfold ret. rewrite Nat.add_0_r, app_nil_r. reflexivity.
  - inversion Hown as [|? ? Hid Hrest]; subst.
    unfold bind at 1. rewrite sendMessage_after_trace. simpl.
    rewrite (sendMessage_own_normal _ _ _ _ Hid).
    rewrite IH by exact Hrest.
    rewrite <- !app_assoc. unfold exec.
    destruct (would_send st message filter id); simpl; f_equal; f_equal; lia.
Qed.

Lemma keys_are_own (st : WebSocketServer) :
  Forall (fun id => is_Some (own_property (sessions st) id)) (keys (sessions st)).
Proof. apply Forall_forall. intros id Hid. apply own_property_keys. exact Hid. Qed.

Lemma sendMessageToAll_spec st :
  let n := length (List.filter (would_send st message filter) (keys (sessions st))) in
  sendMessageToAll message filter st
  = (Normal n,
     with_trace
       (trace st ++ deliveries message filter st (keys (sessions st))
        ++ [LogCall LogV (tag st) "Message sent to all"
              [("sent", Num n); ("message", Str message)]]) st).
Proof.
  intros n.
  pose proof (sendToEach_spec st (keys (sessions st)) 0 [] (keys_are_own st)) as H.
  rewrite app_nil_r, with_trace_same in H. simpl in H.
  unfold sendMessageToAll, bind, get. rewrite H.
  unfold log, emit, modify, bind, get, ret. simpl.
  rewrite <- app_assoc. reflexivity.
Qed.

(** The loop of [sendMessageToOthers] is the plain loop over the keys
    that differ from [mySessionId]. *)
Lemma sendToEachBut_filter mySessionId :
  forall ids sent st,
    sendToEachBut message mySessionId ids filter sent st
    = sendToEach message
        (List.filter (fun id => negb (String.eqb id mySessionId)) ids) filter sent st.
Proof.
  induction ids as [|id rest IH]; intros sent st; simpl; [reflexivity|].
  destruct (String.eqb id mySessionId); simpl.
  - apply IH.
  - unfold bind. destruct (sendMessage message id filter st) as [[ok|e] st'];
      [apply IH | reflexivity].
Qed.

Lemma sendMessageToOthers_spec mySessionId st :
  let others :=
    List.filter (fun id => negb (String.eqb id mySessionId)) (keys (sessions st)) in
  let n := length (List.filter (would_send st message filter) others) in
  sendMessageToOthers message mySessionId filter st
  = (Normal n,
     with_trace
       (trace st ++ deliveries message filter st others
        ++ [LogCall LogV (tag st) "Message sent to others"
              [("sent", Num n); ("message", Str message);
               ("mySessionId", Str mySessionId)]]) st).
Proof.
  intros others n.
  assert (Hown : Forall (fun id => is_Some (own_property (sessions st) id)) others).
  { apply Forall_forall. intros id Hid. apply own_property_keys.
    apply list_elem_of_In in Hid. apply filter_In in Hid.
    apply list_elem_of_In. tauto. }
  pose proof (sendToEach_spec st others 0 [] Hown) as H.
  rewrite app_nil_r, with_trace_same in H. simpl in H.
  unfold sendMessageToOthers, bind, get. rewrite sendToEachBut_filter.
  fold others. rewrite H.
  unfold log, emit, modify, bind, get, ret. simpl.
  rewrite <- app_assoc. reflexivity.
Qed.

(** Removing one entry of the registry does not change what
    [sendMessage] does for any other identifier. *)
Lemma sendMessage_without mySessionId id st :
  id <> mySessionId ->
  let st' := with_sessions (delete_property (sessions st) mySessionId) st in
  would_send st' message filter id = would_send st message filter id
  /\ added st' (exec (sendMessage message id filter) st')
     = added st (exec (sendMessage message id filter) st).
Proof.
  intros Hne st'. unfold would_send, returned_true, exec.
  rewrite !sendMessage_cases. unfold st'. simpl.
  rewrite get_property_delete_ne by congruence.
  change (readyStateOf (with_sessions _ st)) with (readyStateOf st).
  destruct (get_property (sessions st) id) as [s| |]; simpl; auto.
  destruct (negb _ && _); simpl; auto.
Qed.
End Broadcast.

(** C5. [sendMessageToAll] applies [sendMessage] to every key of the
    registry, in order, and returns the number of keys for which
    [sendMessage] returned true; with three open sessions negotiated as
    [["chatv1"]], [["chatv1", "v2"]] and [[]], the filter [["chatv1"]]
    reaches the first two only and the call returns 2. *)
Theorem sendMessageToAll_counts
    (message : string) (filter : option TWebSocketServerSessionSubprotocols)
    (st : WebSocketServer) :
  let ids := keys (sessions st) in
  let n := length (List.filter (would_send st message filter) ids) in
  sendMessageToAll message filter st
  = (Normal n,
     with_trace
       (trace st ++ deliveries message filter st ids
        ++ [LogCall LogV (tag st) "Message sent to all"
              [("sent", Num n); ("message", Str message)]]) st)
  /\ sessions three_clients
     = [("S1", mkSession 0 ["chatv1"]); ("S2", mkSession 1 ["chatv1"; "v2"]);
        ("S3", mkSession 2 [])]
  /\ map readyState (connections three_clients) = [OPEN; OPEN; OPEN]
  /\ fst (sendMessageToAll "hello" (Some [Some "chatv1"]) three_clients) = Normal 2
  /\ added three_clients (snd (sendMessageToAll "hello" (Some [Some "chatv1"]) three_clients))
     = [ SocketSend 0 "hello";
         LogCall LogV "WebSocketServer->main" "Sent message"
           [("toSessionId", Str "S1"); ("message", Str "hello")];
         SocketSend 1 "hello";
         LogCall LogV "WebSocketServer->main" "Sent message"
           [("toSessionId", Str "S2"); ("message", Str "hello")];
         LogCall LogV "WebSocketServer->main" "Message sent to all"
           [("sent", Num 2); ("message", Str "hello")] ].
Proof.
  intros ids n. split; [apply sendMessageToAll_spec|].
  repeat split; vm_compute; reflexivity.
Qed.

Lemma without_agree message filter mySessionId st :
  let st' := with_sessions (delete_property (sessions st) mySessionId) st in
  forall ids,
    Forall (fun id => id <> mySessionId) ids ->
    deliveries message filter st' ids = deliveries message filter st ids
    /\ List.filter (would_send st' message filter) ids
       = List.filter (would_send st message filter) ids.
Proof.
  intros st'. induction ids as [|id rest IH]; intros Hne; [easy|].
  inversion Hne as [|? ? Hid Hrest]; subst.
  destruct (IH Hrest) as [IHd IHf].
  destruct (sendMessage_without message filter mySessionId id st Hid) as [Hw Ha].
  fold st' in Hw, Ha. unfold exec in Ha.
  unfold deliveries in *. simpl. rewrite Hw, Ha, IHd, IHf. split; reflexivity.
Qed.

Lemma deliveries_origin message filter st ids e :
  e ∈ deliveries message filter st ids ->
  exists id s,
    id ∈ ids /\ own_property (sessions st) id = Some s /\ e ∈ delivery st message id s.
Proof.
  unfold deliveries. rewrite list_elem_of_In, in_flat_map.
  intros (id & Hid & He).
  destruct (sendMessage_added message id filter st) as [Hnil|(s & Hs & _ & Hadd)];
    unfold exec in *.
  - rewrite Hnil in He. destruct He.
  - exists id, s. rewrite Hadd in He. rewrite !list_elem_of_In. auto.
Qed.

(** C6. [sendMessageToOthers] addresses nothing to [mySessionId], whatever
    the state of that session, and otherwise does what [sendMessageToAll]
    does on the registry without that key: the same sends in the same
    order and the same count. *)
Theorem sendMessageToOthers_skips
    (message mySessionId : string) (filter : option TWebSocketServerSessionSubprotocols)
    (st : WebSocketServer) :
  let rest := with_sessions (delete_property (sessions st) mySessionId) st in
  exists (n : nat) (sends : list effect),
    sendMessageToOthers message mySessionId filter st
    = (Normal n,
       with_trace
         (trace st ++ sends
          ++ [LogCall LogV (tag st) "Message sent to others"
                [("sent", Num n); ("message", Str message);
                 ("mySessionId", Str mySessionId)]]) st)
    /\ sendMessageToAll message filter rest
       = (Normal n,
          with_trace
            (trace st ++ sends
             ++ [LogCall LogV (tag st) "Message sent to all"
                   [("sent", Num n); ("message", Str message)]]) rest)
    /\ (forall e, e ∈ sends -> ~ addressed_to mySessionId e)
    /\ (forall sock m, SocketSend sock m ∈ sends ->
          exists id s,
            id <> mySessionId /\ own_property (sessions st) id = Some s /\ socket s = sock).
Proof.
  intros rest.
  set (others := List.filter (fun id => negb (String.eqb id mySessionId)) (keys (sessions st))).
  assert (Hothers : Forall (fun id => id <> mySessionId) others).
  { apply Forall_forall. intros id Hid. apply list_elem_of_In, filter_In in Hid.
    destruct Hid as [_ Hid]. apply negb_true_iff, String.eqb_neq in Hid. exact Hid. }
  destruct (without_agree message filter mySessionId st others Hothers) as [Hd Hf].
  fold rest in Hd, Hf.
  exists (length (List.filter (would_send st message filter) others)),
         (deliveries message filter st others).
  split; [apply sendMessageToOthers_spec|].
  split.
  - rewrite (sendMessageToAll_spec message filter rest).
    replace (keys (sessions rest)) with others by (symmetry; apply keys_delete).
    rewrite Hd, Hf. reflexivity.
  - split.
    + intros e He (tg & m & ->).
      apply deliveries_origin in He. destruct He as (id & s & Hid & _ & He).
      rewrite Forall_forall in Hothers. specialize (Hothers id Hid).
      unfold delivery in He. apply list_elem_of_In in He. simpl in He.
      destruct He as [He|[He|[]]]; [discriminate | congruence].
    + intros sock m He.
      apply deliveries_origin in He. destruct He as (id & s & Hid & Hs & He).
      rewrite Forall_forall in Hothers. specialize (Hothers id Hid).
      exists id, s. repeat split; auto.
      unfold delivery in He. apply list_elem_of_In in He. simpl in He.
      destruct He as [He|[He|[]]]; [congruence | discriminate].
Qed.

(** ** Disconnecting *)

(** [disconnectSession] by cases on the property read. *)
Lemma disconnectSession_cases sessionId code reason st :
  disconnectSession sessionId code reason st =
  match get_property (sessions st) sessionId with
  | Undefined =>
      (Throw (TypeError "Cannot read properties of undefined (reading 'socket')"), st)
  | Inherited => (Normal false, st)
  | Own s =>
      match close_rejection code reason with
      | Some e => (Throw e, st)
      | None =>
          let state := readyStateOf st (socket s) in
          (Normal true,
           with_trace
             (trace st
              ++ [ SocketClose (socket s) code reason;
                   LogCall LogV (tag st) "Session disconnected"
                     [("sessionId", Str sessionId); ("code", optNum code);
                      ("reason", optStr reason)] ])
             (with_sessions (delete_property (sessions st) sessionId)
                (with_connections
                   (if (state =? CLOSING) || (state =? CLOSED) then connections st
                    else alter (fun c => mkConnection CLOSING (sessionIdVar c) (requested c))
                               (socket s) (connections st)) st)))
      end
  end.
Proof.
  unfold disconnectSession, bind at 1, get. simpl.
  destruct (get_property (sessions st) sessionId) as [s| |]; try reflexivity.
  unfold socket_close.
  destruct (close_rejection code reason) as [e|]; [reflexivity|].
  unfold set_readyState, log, emit, modify, bind, get, ret.
  destruct st as [o sv ss fl cs ls su tr]. unfold readyStateOf. simpl.
  destruct (_ || _); simpl; rewrite <- app_assoc; reflexivity.
Qed.

(** A registered session, with arguments [socket.close] accepts, is closed
    and removed, and the call returns true. *)
Lemma disconnectSession_registered sessionId code reason st s :
  own_property (sessions st) sessionId = Some s ->
  close_rejection code reason = None ->
  exists st',
    disconnectSession sessionId code reason st = (Normal true, st')
    /\ own_property (sessions st') sessionId = None
    /\ SocketClose (socket s) code reason ∈ added st st'.
Proof.
  intros Hs Hok. apply get_property_own in Hs.
  rewrite disconnectSession_cases, Hs, Hok. cbv zeta.
  eexists. split; [reflexivity|]. simpl. split.
  - rewrite own_property_delete, String.eqb_refl. reflexivity.
  - unfold added. simpl. rewrite drop_app_length. left.
Qed.

(** A registered session, with arguments [socket.close] refuses: the call
    throws what [socket.close] throws and the session stays registered. *)
Lemma disconnectSession_rejected sessionId code reason st s e :
  own_property (sessions st) sessionId = Some s ->
  close_rejection code reason = Some e ->
  disconnectSession sessionId code reason st = (Throw e, st).
Proof.
  intros Hs Hno. apply get_property_own in Hs.
  rewrite disconnectSession_cases, Hs, Hno. reflexivity.
Qed.

(** An identifier that names nothing at all makes the call throw. *)
Lemma disconnectSession_absent_throws sessionId code reason st :
  get_property (sessions st) sessionId = Undefined ->
  disconnectSession sessionId code reason st
  = (Throw (TypeError "Cannot read properties of undefined (reading 'socket')"), st).
Proof. intros H. unfold disconnectSession, bind, get. rewrite H. reflexivity. Qed.

(** C1. [disconnectSession] is not total: with the sessions "S1", "S2" and
    "S3" registered, the unknown identifier "S4" makes it throw a
    [TypeError] (it reads [socket] of [undefined]) instead of returning
    false; and after a first [disconnectSession("S2", 1000)], which closes
    the socket, removes the entry and returns true, the second call with
    "S2" throws as well. *)
Theorem disconnectSession_unknown_throws :
  get_property (sessions three_clients) "S4" = Undefined
  /\ fst (disconnectSession "S4" None None three_clients)
     = Throw (TypeError "Cannot read properties of undefined (reading 'socket')")
  /\ let first := disconnectSession "S2" (Some 1000) None three_clients in
     fst first = Normal true
     /\ keys (sessions (snd first)) = ["S1"; "S3"]
     /\ readyStateOf (snd first) 1 = CLOSING
     /\ fst (disconnectSession "S2" (Some 1000) None (snd first))
        = Throw (TypeError "Cannot read properties of undefined (reading 'socket')").
Proof. repeat split; vm_compute; reflexivity. Qed.

(** ** Splitting and trimming *)

Lemma split_not_nil sep s : split sep s <> [].
Proof.
  destruct s as [|c rest]; simpl; [discriminate|].
  destruct (Ascii.eqb c sep); [discriminate|].
  destruct (split sep rest); discriminate.
Qed.

(** Joining the segments with the separator gives the string back. *)
Lemma concat_split sep s : String.concat (String sep EmptyString) (split sep s) = s.
Proof.
  induction s as [|c rest IH]; simpl; [reflexivity|].
  destruct (Ascii.eqb_spec c sep) as [->|Hne].
  - pose proof (split_not_nil sep rest) as Hnil.
    destruct (split sep rest) as [|seg segs]; [congruence|].
    simpl in *. rewrite IH. reflexivity.
  - pose proof (split_not_nil sep rest) as Hnil.
    destruct (split sep rest) as [|seg segs]; [congruence|].
    simpl in *. destruct segs as [|seg' segs]; simpl in *; rewrite <- IH; reflexivity.
Qed.

Lemma split_comma_free s : Forall (fun p => comma_free p = true) (split "," s).
Proof.
  induction s as [|c rest IH]; simpl.
  - constructor; [reflexivity | constructor].
  - destruct (Ascii.eqb c ",") eqn:Hc.
    + constructor; [reflexivity | exact IH].
    + destruct (split "," rest) as [|seg segs]; simpl.
      * constructor; [simpl; rewrite Hc; reflexivity | constructor].
      * inversion IH; subst. constructor; [simpl; rewrite Hc; simpl; assumption | assumption].
Qed.

Lemma split_single p : comma_free p = true -> split "," p = [p].
Proof.
  induction p as [|c rest IH]; simpl; [reflexivity|].
  destruct (Ascii.eqb c ","); simpl; [discriminate|].
  intros H. rewrite (IH H). reflexivity.
Qed.

Lemma split_app p x :
  comma_free p = true -> split "," (p ++ String "," x)%string = p :: split "," x.
Proof.
  induction p as [|c rest IH]; simpl; [reflexivity|].
  destruct (Ascii.eqb c ","); simpl; [discriminate|].
  intros H. rewrite (IH H). reflexivity.
Qed.

(** The comma-separated pieces of a header are unique: they are what
    [split] returns. *)
Lemma pieces_of_split header pieces : pieces_of header pieces <-> pieces = split "," header.
Proof.
  split.
  - intros (Hnil & Hfree & <-).
    induction pieces as [|p rest IH]; [congruence|].
    inversion Hfree as [|? ? Hp Hrest]; subst.
    destruct rest as [|q rest].
    + simpl. symmetry. apply split_single. exact Hp.
    + change (String.concat "," (p :: q :: rest))
        with (p ++ String "," (String.concat "," (q :: rest)))%string.
      rewrite split_app by exact Hp. f_equal. apply IH; [discriminate | exact Hrest].
  - intros ->. repeat split.
    + apply split_not_nil.
    + apply split_comma_free.
    + apply concat_split.
Qed.

Lemma trimStart_white s : all_white s = true -> trimStart s = EmptyString.
Proof.
  induction s as [|c rest IH]; simpl; [reflexivity|].
  destruct (is_white_space c); simpl; [exact IH | discriminate].
Qed.

Lemma trimEnd_white s : all_white s = true -> trimEnd s = EmptyString.
Proof.
  induction s as [|c rest IH]; simpl; [reflexivity|].
  destruct (is_white_space c); simpl; [|discriminate].
  intros H. rewrite (IH H). reflexivity.
Qed.

Lemma trimStart_app before s :
  all_white before = true -> trimStart (before ++ s)%string = trimStart s.
Proof.
  induction before as [|c rest IH]; simpl; [reflexivity|].
  destruct (is_white_space c); simpl; [exact IH | discriminate].
Qed.

Lemma trimStart_fixed s : starts_white s = false -> trimStart s = s.
Proof. destruct s as [|c rest]; simpl; [reflexivity|]. intros ->. reflexivity. Qed.

Lemma trimEnd_app t after :
  ends_white t = false -> all_white after = true -> trimEnd (t ++ after)%string = t.
Proof.
  intros Ht Hafter. induction t as [|c rest IH]; simpl.
  - apply trimEnd_white. exact Hafter.
  - destruct rest as [|c' rest'].
    + simpl in *. rewrite IH, Ht by reflexivity. reflexivity.
    + rewrite IH by exact Ht. reflexivity.
Qed.

Lemma append_cons c s t : (String c s ++ t)%string = String c (s ++ t)%string.
Proof. reflexivity. Qed.

Lemma append_empty t : (EmptyString ++ t)%string = t.
Proof. reflexivity. Qed.

(** What [trimStart] removes is white space, and it leaves none in front. *)
Lemma trimStart_decompose s :
  exists before,
    s = (before ++ trimStart s)%string
    /\ all_white before = true /\ starts_white (trimStart s) = false.
Proof.
  induction s as [|c rest (before & Heq & Hw & Hs)]; simpl.
  - exists EmptyString. auto.
  - destruct (is_white_space c) eqn:Hc.
    + exists (String c before). rewrite append_cons, <- Heq. simpl.
      rewrite Hc. auto.
    + exists EmptyString. rewrite append_empty. simpl. auto.
Qed.

(** What [trimEnd] removes is white space, and it leaves none at the end. *)
Lemma trimEnd_decompose s :
  exists after,
    s = (trimEnd s ++ after)%string
    /\ all_white after = true /\ ends_white (trimEnd s) = false.
Proof.
  induction s as [|c rest (after & Heq & Hw & He)]; simpl.
  - exists EmptyString. auto.
  - destruct (trimEnd rest) as [|c' kept] eqn:Hrest.
    + rewrite append_empty in Heq. subst after. destruct (is_white_space c) eqn:Hc.
      * exists (String c rest). rewrite append_empty. simpl.
        rewrite Hc, Hw. auto.
      * exists rest. rewrite append_cons, append_empty. simpl.
        rewrite Hc. auto.
    + exists after. rewrite append_cons, <- Heq. auto.
Qed.

Lemma trimEnd_keeps_start s : starts_white s = false -> starts_white (trimEnd s) = false.
Proof.
  destruct s as [|c rest]; simpl; [reflexivity|].
  intros Hc. destruct (trimEnd rest); [rewrite Hc|]; simpl; auto.
Qed.

(** [trim] removes exactly the white space around a string. *)
Lemma trimmed_of_trim t s : trimmed_of t s <-> t = trim s.
Proof.
  unfold trim. split.
  - intros (before & after & -> & Hb & Ha & Hs & He).
    rewrite trimStart_app by exact Hb.
    destruct t as [|c rest].
    + simpl. rewrite trimStart_white by exact Ha. reflexivity.
    + rewrite trimStart_fixed by exact Hs. rewrite trimEnd_app by assumption. reflexivity.
  - intros ->.
    destruct (trimStart_decompose s) as (before & Hs & Hb & Hstart).
    destruct (trimEnd_decompose (trimStart s)) as (after & Ht & Ha & Hend).
    exists before, after. repeat split; auto.
    + rewrite <- Ht. exact Hs.
    + apply trimEnd_keeps_start. exact Hstart.
Qed.

Lemma Forall2_trimmed_of tokens pieces :
  Forall2 trimmed_of tokens pieces <-> tokens = map (fun it => trim it) pieces.
Proof.
  split.
  - induction 1 as [|t p ts ps Htp _ IH]; simpl; [reflexivity|].
    apply trimmed_of_trim in Htp. congruence.
  - intros ->. induction pieces as [|p ps IH]; simpl; constructor; auto.
    apply trimmed_of_trim. reflexivity.
Qed.

(** [filter(it => it.length)] drops the empty strings and nothing else. *)
Lemma filter_length_discard_empty tokens :
  List.filter (fun it => negb (String.length it =? 0)) tokens = discard_empty tokens.
Proof.
  induction tokens as [|t rest IH]; simpl; [reflexivity|].
  destruct t; simpl; rewrite IH; reflexivity.
Qed.

(** The list the handler computes is the one the specification describes. *)
Lemma requestedSubprotocols_spec req l :
  subprotocol_list_spec (default EmptyString (secWebsocketProtocol req)) l
  <-> l = requestedSubprotocols req.
Proof.
  unfold subprotocol_list_spec, requestedSubprotocols.
  rewrite filter_length_discard_empty. split.
  - intros (pieces & tokens & Hp & Ht & ->).
    apply pieces_of_split in Hp. apply Forall2_trimmed_of in Ht. subst. reflexivity.
  - intros ->. eexists _, _. split; [apply pieces_of_split; reflexivity|].
    split; [apply Forall2_trimmed_of; reflexivity | reflexivity].
Qed.

(** ** The request handler *)

Lemma alter_new {A} (f : A -> A) (l : list A) (x : A) :
  alter f (length l) (l ++ [x]) = l ++ [f x].
Proof.
  rewrite <- (Nat.add_0_r (length l)), alter_app_r. reflexivity.
Qed.

(** A request whose [upgrade] header is not "websocket". *)
Lemma handler_not_upgrade req outcome st :
  upgrade req <> Some "websocket" ->
  handler req outcome st
  = (Normal (mkResponse 501),
     with_trace
       (trace st
        ++ [ LogCall LogD (tag st) "Client Protocols" [(EmptyString, Strs (requestedSubprotocols req))];
             LogCall LogW (tag st) "Connection failed to upgrade"
               [("upgrade", optStr (upgrade req))] ]) st).
Proof.
  intros Hne. unfold handler.
  rewrite bool_decide_eq_false_2 by exact Hne.
  unfold log, emit, modify, bind, get, ret. simpl.
  rewrite <- app_assoc. reflexivity.
Qed.

(** An upgrade request for which [Deno.upgradeWebSocket] throws. *)
Lemma handler_upgrade_throws req e st :
  upgrade req = Some "websocket" ->
  handler req (UpgradeThrows e) st
  = (Normal (mkResponse 500),
     with_trace
       (trace st
        ++ [ LogCall LogD (tag st) "Client Protocols" [(EmptyString, Strs (requestedSubprotocols req))];
             UpgradeWebSocket (head (requestedSubprotocols req));
             LogCall LogW (tag st) "Connection failed to upgrade" [(EmptyString, Str e)] ]) st).
Proof.
  intros Heq. unfold handler.
  rewrite bool_decide_eq_true_2 by exact Heq.
  unfold try_catch, upgradeWebSocket, log, emit, modify, bind, get, ret, throw. simpl.
  rewrite <- !app_assoc. reflexivity.
Qed.

(** An upgrade request that is upgraded: a new socket, connecting, whose
    callbacks hold the requested list. *)
Lemma handler_upgraded req st :
  upgrade req = Some "websocket" ->
  handler req Upgraded st
  = (Normal (mkResponse 101),
     with_connections
       (connections st ++ [mkConnection CONNECTING EmptyString (requestedSubprotocols req)])
       (with_trace
          (trace st
           ++ [ LogCall LogD (tag st) "Client Protocols"
                  [(EmptyString, Strs (requestedSubprotocols req))];
                UpgradeWebSocket (head (requestedSubprotocols req));
                LogCall LogV (tag st) "Connection was upgraded"
                  [("upgrade", optStr (upgrade req));
                   ("subprotocols", Strs (requestedSubprotocols req))] ]) st)).
Proof.
  intros Heq. unfold handler.
  rewrite bool_decide_eq_true_2 by exact Heq.
  unfold try_catch, upgradeWebSocket, install_callbacks, log, emit, modify, bind, get, ret.
  simpl. rewrite alter_new, <- !app_assoc. reflexivity.
Qed.

(** C7. A request whose upgrade header is not "websocket" is answered with
    status 501, and an upgrade request for which the protocol-level
    upgrade throws is answered with status 500; in both cases the handler
    completes normally, the registry is unchanged and no socket (hence no
    session) is created. *)
Theorem handler_rejects_without_state_change
    (plain failing : Request) (outcome : upgrade_result) (e : string) (st : WebSocketServer) :
  upgrade plain <> Some "websocket" ->
  upgrade failing = Some "websocket" ->
  (exists st',
     handler plain outcome st = (Normal (mkResponse 501), st')
     /\ sessions st' = sessions st /\ connections st' = connections st
     /\ offered (added st st') = [])
  /\ (exists st',
        handler failing (UpgradeThrows e) st = (Normal (mkResponse 500), st')
        /\ sessions st' = sessions st /\ connections st' = connections st).
Proof.
  intros Hplain Hfailing. split.
  - eexists. split; [apply handler_not_upgrade; exact Hplain|].
    rewrite added_with_trace. auto.
  - eexists. split; [apply handler_upgrade_throws; exact Hfailing|]. auto.
Qed.

Lemma handler_rejects_without_state_change_witness :
  fst (handler (mkRequest None (Some "chatv1")) Upgraded three_clients)
  = Normal (mkResponse 501)
  /\ fst (handler (upgrade_request (Some "chatv1")) (UpgradeThrows "no key") three_clients)
     = Normal (mkResponse 500).
Proof.
  destruct (handler_rejects_without_state_change
              (mkRequest None (Some "chatv1")) (upgrade_request (Some "chatv1"))
              Upgraded "no key" three_clients)
    as [(st1 & H1 & _) (st2 & H2 & _)].
  - simpl. discriminate.
  - reflexivity.
  - rewrite H1, H2. split; reflexivity.
Defined.

(** C8. The requested sub-protocol list is the header cut at its commas,
    each piece trimmed, the empty ones discarded, in the original order;
    and the upgrade is offered the first element of that list, or no
    protocol when the list is empty.  On success the callbacks of the new
    socket hold that list. *)
Theorem requested_subprotocols_and_offer
    (req : Request) (outcome : upgrade_result) (st : WebSocketServer) :
  upgrade req = Some "websocket" ->
  (forall l,
     subprotocol_list_spec (default EmptyString (secWebsocketProtocol req)) l
     <-> l = requestedSubprotocols req)
  /\ offered (added st (snd (handler req outcome st))) = [head (requestedSubprotocols req)]
  /\ (outcome = Upgraded ->
      connections (snd (handler req outcome st))
      = connections st ++ [mkConnection CONNECTING EmptyString (requestedSubprotocols req)]).
Proof.
  intros Hup. split; [intros l; apply requestedSubprotocols_spec|].
  destruct outcome as [|e].
  - rewrite handler_upgraded by exact Hup. simpl.
    unfold added. simpl. rewrite drop_app_length. auto.
  - rewrite handler_upgrade_throws by exact Hup. simpl.
    rewrite added_with_trace. split; [reflexivity | discriminate].
Qed.

Lemma requested_subprotocols_and_offer_witness :
  requestedSubprotocols (upgrade_request (Some " chatv1 , ,v2,")) = ["chatv1"; "v2"]
  /\ offered (added three_clients
                (snd (handler (upgrade_request (Some " chatv1 , ,v2,")) Upgraded three_clients)))
     = [Some "chatv1"].
Proof.
  destruct (requested_subprotocols_and_offer
              (upgrade_request (Some " chatv1 , ,v2,")) Upgraded three_clients)
    as (_ & Hoffer & _).
  - reflexivity.
  - split; [reflexivity | exact Hoffer].
Defined.

(** ** What each computation leaves alone *)

Section Frame.
Variable R : WebSocketServer -> WebSocketServer -> Prop.
Hypothesis R_refl : forall st, R st st.
Hypothesis R_trans : forall a b c, R a b -> R b c -> R a c.

Lemma respects_ret {A} (a : A) : respects R (ret a).
Proof. intros st. apply R_refl. Qed.

Lemma respects_throw {A} e : respects R (@throw A e).
Proof. intros st. apply R_refl. Qed.

Lemma respects_bind {A B} (c : M A) (k : A -> M B) :
  respects R c -> (forall a, respects R (k a)) -> respects R (bind c k).
Proof.
  intros Hc Hk st. unfold bind. specialize (Hc st).
  destruct (c st) as [[a|e] st']; simpl in *; [|exact Hc].
  eapply R_trans; [exact Hc | apply Hk].
Qed.

Lemma respects_try_catch {A} (c : M A) (h : exception -> M A) :
  respects R c -> (forall e, respects R (h e)) -> respects R (try_catch c h).
Proof.
  intros Hc Hh st. unfold try_catch. specialize (Hc st).
  destruct (c st) as [[a|e] st']; simpl in *; [exact Hc|].
  eapply R_trans; [exact Hc | apply Hh].
Qed.

(** A computation that first reads the state. *)
Lemma respects_get {A} (k : WebSocketServer -> M A) :
  (forall st0, respects R (k st0)) -> respects R (bind get k).
Proof. intros Hk st. unfold bind, get. apply Hk. Qed.

Lemma respects_modify (f : WebSocketServer -> WebSocketServer) :
  (forall st, R st (f st)) -> respects R (modify f).
Proof. intros Hf st. apply Hf. Qed.
End Frame.

Lemma same_world_refl st : same_world st st.
Proof. repeat split. Qed.

Lemma same_world_trans a b c : same_world a b -> same_world b c -> same_world a c.
Proof. unfold same_world. intros (? & ? & ?) (? & ? & ?). repeat split; congruence. Qed.

Lemma same_flag_refl st : same_flag st st.
Proof. split; reflexivity. Qed.

Lemma same_flag_trans a b c : same_flag a b -> same_flag b c -> same_flag a c.
Proof. unfold same_flag. intros (? & ?) (? & ?). split; congruence. Qed.

Lemma issued_app t t' : issued (t ++ t') = issued t ++ issued t'.
Proof.
  induction t as [|e rest IH]; simpl; [reflexivity|].
  destruct e as [| state value about | | | | | |]; try exact IH.
  destruct state, about; simpl; rewrite ?IH; reflexivity.
Qed.

Lemma issued_quiet e : hands_out e = false -> issued [e] = [].
Proof.
  destruct e as [| state value about | | | | | |]; try reflexivity.
  destruct state, about; simpl; (reflexivity || discriminate).
Qed.

Lemma emit_same_world e : hands_out e = false -> respects same_world (emit e).
Proof.
  intros He st. unfold emit, modify. simpl. repeat split. simpl.
  rewrite issued_app, (issued_quiet e He), app_nil_r. reflexivity.
Qed.

Lemma emit_same_flag e : respects same_flag (emit e).
Proof. intros st. split; reflexivity. Qed.

Lemma log_same_world lvl text data : respects same_world (log lvl text data).
Proof.
  unfold log. apply respects_get.
  intros st0. apply emit_same_world. reflexivity.
Qed.

Lemma log_same_flag lvl text data : respects same_flag (log lvl text data).
Proof.
  unfold log. apply respects_get.
  intros st0. apply emit_same_flag.
Qed.

Create HintDb frame.
#[local] Hint Resolve same_world_refl same_world_trans same_flag_refl same_flag_trans : frame.
#[local] Hint Resolve log_same_world log_same_flag emit_same_flag : frame.

(** Closes a goal [respects R c] for straight-line code: splits binds,
    reads, branches and the primitive calls. *)
Ltac frame_step :=
  lazymatch goal with
  | |- respects _ (bind get _) => apply respects_get; intros ?
  | |- respects _ (bind _ _) => apply respects_bind; [solve [eauto with frame] | | intros ?]
  | |- respects _ (try_catch _ _) =>
      apply respects_try_catch; [solve [eauto with frame] | | intros ?]
  | |- respects _ (ret _) => apply respects_ret; solve [auto with frame]
  | |- respects _ (throw _) => apply respects_throw; solve [auto with frame]
  | |- respects _ (modify _) =>
      apply respects_modify; intros ?; solve [repeat split; reflexivity]
  | |- respects _ (onServerEvent _ _ _) => unfold onServerEvent
  | |- respects same_world (emit _) => apply emit_same_world; reflexivity
  | |- respects same_flag (emit _) => apply emit_same_flag
  | |- respects same_world (log _ _ _) => apply log_same_world
  | |- respects same_flag (log _ _ _) => apply log_same_flag
  | |- respects _ (match ?x with _ => _ end) => destruct x
  | |- respects _ _ => solve [eauto]
  end.

Ltac frame := repeat frame_step.

Lemma socket_send_same_world sock message : respects same_world (socket_send sock message).
Proof. unfold socket_send. frame. Qed.

Lemma socket_send_same_flag sock message : respects same_flag (socket_send sock message).
Proof. unfold socket_send. frame. Qed.

Lemma sendMessage_same_world message id filter :
  respects same_world (sendMessage message id filter).
Proof. unfold sendMessage. pose proof socket_send_same_world. frame. Qed.

Lemma sendMessage_same_flag message id filter :
  respects same_flag (sendMessage message id filter).
Proof. unfold sendMessage. pose proof socket_send_same_flag. frame. Qed.

Lemma sendToEach_same_world message filter ids :
  forall sent, respects same_world (sendToEach message ids filter sent).
Proof.
  pose proof sendMessage_same_world.
  induction ids as [|id rest IH]; intros sent; simpl; frame.
Qed.

Lemma sendToEach_same_flag message filter ids :
  forall sent, respects same_flag (sendToEach message ids filter sent).
Proof.
  pose proof sendMessage_same_flag.
  induction ids as [|id rest IH]; intros sent; simpl; frame.
Qed.

Lemma sendToEachBut_same_world message mySessionId filter ids :
  forall sent, respects same_world (sendToEachBut message mySessionId ids filter sent).
Proof.
  pose proof sendMessage_same_world.
  induction ids as [|id rest IH]; intros sent; simpl; frame.
Qed.

Lemma sendToEachBut_same_flag message mySessionId filter ids :
  forall sent, respects same_flag (sendToEachBut message mySessionId ids filter sent).
Proof.
  pose proof sendMessage_same_flag.
  induction ids as [|id rest IH]; intros sent; simpl; frame.
Qed.

Lemma broadcasts_same_world message mySessionId ids filter :
  respects same_world (sendMessageToAll message filter)
  /\ respects same_world (sendMessageToOthers message mySessionId filter)
  /\ respects same_world (sendMessageToGroup message ids filter).
Proof.
  pose proof sendToEach_same_world. pose proof sendToEachBut_same_world.
  unfold sendMessageToAll, sendMessageToOthers, sendMessageToGroup.
  split; [|split]; frame.
Qed.

Lemma broadcasts_same_flag message mySessionId ids filter :
  respects same_flag (sendMessageToAll message filter)
  /\ respects same_flag (sendMessageToOthers message mySessionId filter)
  /\ respects same_flag (sendMessageToGroup message ids filter).
Proof.
  pose proof sendToEach_same_flag. pose proof sendToEachBut_same_flag.
  unfold sendMessageToAll, sendMessageToOthers, sendMessageToGroup.
  split; [|split]; frame.
Qed.

Lemma handler_same_flag req outcome : respects same_flag (handler req outcome).
Proof. unfold handler, upgradeWebSocket, install_callbacks. frame. Qed.

Lemma set_readyState_same_flag sock v : respects same_flag (set_readyState sock v).
Proof. unfold set_readyState. frame. Qed.

Lemma callbacks_same_flag sock uuid code type message data :
  respects same_flag (socket_onopen sock uuid)
  /\ respects same_flag (socket_onclose sock code)
  /\ respects same_flag (socket_onerror sock type message)
  /\ respects same_flag (socket_onmessage sock data).
Proof.
  unfold socket_onopen, socket_onclose, socket_onerror, socket_onmessage, with_closure.
  split; [|split; [|split]]; frame.
Qed.

Lemma callbacks_same_world sock type message data :
  respects same_world (socket_onerror sock type message)
  /\ respects same_world (socket_onmessage sock data).
Proof.
  unfold socket_onerror, socket_onmessage, with_closure.
  split; frame.
Qed.

Lemma disconnectSession_same_flag sessionId code reason :
  respects same_flag (disconnectSession sessionId code reason).
Proof.
  pose proof set_readyState_same_flag.
  unfold disconnectSession, socket_close. frame.
Qed.

Lemma resume_same_flag k outcome : respects same_flag (resume k outcome).
Proof. unfold resume, start_serve, serve, park. frame. Qed.

Lemma start_same_world fromRestart outcome : respects same_world (start fromRestart outcome).
Proof. unfold start, start_serve, serve, park, listener_shutdown. frame. Qed.

Lemma restart_same_world outcome : respects same_world (restart outcome).
Proof. pose proof start_same_world. unfold restart. frame. Qed.

Lemma lifecycle_same_world outcome k :
  respects same_world shutdown
  /\ respects same_world (on_finished outcome)
  /\ respects same_world (resume k outcome).
Proof.
  pose proof restart_same_world.
  unfold shutdown, on_finished, resume, start_serve, serve, park, listener_shutdown.
  split; [|split]; frame.
Qed.

(** ** Lifecycle: the flag and the [finished] callback *)

Lemma start_same_flag fromRestart outcome : respects same_flag (start fromRestart outcome).
Proof. unfold start, start_serve, serve, park, listener_shutdown. frame. Qed.

Lemma restart_flag outcome st :
  shouldShutDown (exec (restart outcome) st) = false
  /\ options (exec (restart outcome) st) = options st.
Proof.
  unfold exec, restart, bind at 1, modify. simpl.
  assert (H : respects same_flag
                (let! st0 := get in
                 log LogI "Restarting server" [("port", Num (port (options st0)))] >>
                 start true outcome)).
  { pose proof start_same_flag. frame. }
  destruct (H (with_shouldShutDown false st)) as [Ho Hf]. split; assumption.
Qed.

Lemma shutdown_flag st :
  shouldShutDown (exec shutdown st) = true /\ options (exec shutdown st) = options st.
Proof.
  unfold exec, shutdown, bind at 1, modify. simpl.
  assert (H : respects same_flag
                (let! st0 := get in
                 log LogI "Shutting down server" [("port", Num (port (options st0)))] >>
                 match server st0 with
                 | Some listener => listener_shutdown listener
                 | None => ret tt
                 end >> park ShutdownAfterTeardown)).
  { unfold listener_shutdown, park. frame. }
  destruct (H (with_shouldShutDown true st)) as [Ho Hf]. split; assumption.
Qed.

(** With the flag set the [finished] callback does nothing. *)
Lemma on_finished_suppressed outcome st :
  shouldShutDown st = true -> on_finished outcome st = (Normal tt, st).
Proof. intros H. unfold on_finished, bind, get. rewrite H. reflexivity. Qed.

(** With the flag clear it reports the termination and then restarts, or
    not, as [keepAlive] says. *)
Lemma on_finished_unexpected outcome st :
  shouldShutDown st = false ->
  on_finished outcome st
  = (if keepAlive (options st) then restart outcome else ret tt)
      (with_trace (trace st ++ unexpected_termination st) st).
Proof.
  intros H. unfold on_finished, bind at 1, get. rewrite H. simpl.
  unfold onServerEvent, log, emit, modify, bind at 1 2 3, get. simpl.
  rewrite <- app_assoc. simpl. destruct (keepAlive (options st)); reflexivity.
Qed.

(** Only [restart] clears the flag and only [shutdown] sets it. *)
Lemma step_flag i st :
  shouldShutDown (step i st)
  = match i with
    | CallRestart _ => false
    | CallShutdown => true
    | _ => shouldShutDown st
    end
  /\ options (step i st) = options st.
Proof.
  assert (Hframe : forall A (c : M A) s, respects same_flag c ->
            shouldShutDown (exec c s) = shouldShutDown s /\ options (exec c s) = options s).
  { intros A c s Hc. destruct (Hc s) as [Ho Hf]. split; assumption. }
  destruct i as [req up | sock uuid | sock data | sock type msg | sock code
                | m id f | m f | m my f | m ids f | id code reason | o | | o | n o]; simpl.
  - apply Hframe, handler_same_flag.
  - destruct (_ && _); [|auto].
    apply Hframe. pose proof set_readyState_same_flag.
    pose proof (proj1 (callbacks_same_flag sock uuid 0 EmptyString None EmptyString)). frame.
  - apply Hframe. apply (callbacks_same_flag sock EmptyString 0 EmptyString None data).
  - apply Hframe. apply (callbacks_same_flag sock EmptyString 0 type msg EmptyString).
  - destruct (_ && _); [|auto].
    apply Hframe. pose proof set_readyState_same_flag.
    pose proof (proj1 (proj2 (callbacks_same_flag sock EmptyString code EmptyString None EmptyString))). frame.
  - apply Hframe, sendMessage_same_flag.
  - apply Hframe. apply (broadcasts_same_flag m EmptyString [] f).
  - apply Hframe. apply (broadcasts_same_flag m my [] f).
  - apply Hframe. apply (broadcasts_same_flag m EmptyString ids f).
  - apply Hframe, disconnectSession_same_flag.
  - apply restart_flag.
  - apply shutdown_flag.
  - destruct (shouldShutDown st) eqn:Hflag.
    + unfold exec. rewrite on_finished_suppressed by exact Hflag. auto.
    + unfold exec. rewrite on_finished_unexpected by exact Hflag.
      destruct (keepAlive (options st)).
      * destruct (restart_flag o (with_trace (trace st ++ unexpected_termination st) st))
          as [Hf Ho]. unfold exec in *. rewrite Hf, Ho. auto.
      * auto.
  - destruct (suspended st !! n) as [k|]; [|auto].
    destruct (Hframe _ (resume k o)
                (with_suspended (delete n (suspended st)) st) (resume_same_flag k o))
      as [Hf Ho].
    rewrite Hf, Ho. auto.
Qed.

Lemma run_app inputs inputs' st : run (inputs ++ inputs') st = run inputs' (run inputs st).
Proof. unfold run. apply fold_left_app. Qed.

Lemma run_keeps_flag_set inputs :
  forall st,
    Forall (fun i => calls_restart i = false) inputs ->
    shouldShutDown st = true -> shouldShutDown (run inputs st) = true.
Proof.
  induction inputs as [|i rest IH]; intros st Hno Hflag; [exact Hflag|].
  inversion Hno as [|? ? Hi Hrest]; subst. simpl. apply IH; [exact Hrest|].
  rewrite (proj1 (step_flag i st)). destruct i; auto; discriminate.
Qed.

Lemma run_keeps_flag_clear inputs :
  forall st,
    Forall (fun i => calls_shutdown i = false) inputs ->
    shouldShutDown st = false -> shouldShutDown (run inputs st) = false.
Proof.
  induction inputs as [|i rest IH]; intros st Hno Hflag; [exact Hflag|].
  inversion Hno as [|? ? Hi Hrest]; subst. simpl. apply IH; [exact Hrest|].
  rewrite (proj1 (step_flag i st)). destruct i; auto; discriminate.
Qed.

(** ** Identifiers: what each input does to the registry *)

Lemma evolves_refl l : evolves l l.
Proof. intros sock c Hc. exists c. auto. Qed.

Lemma same_world_exec {A} (c : M A) st : respects same_world c -> same_world st (exec c st).
Proof. intros H. apply H. Qed.

(** The platform opens a connecting socket: the callback registers it
    under the fresh value and hands that value out. *)
Lemma step_opened sock uuid st c :
  connections st !! sock = Some c -> readyState c = CONNECTING ->
  let st' := step (SocketOpened sock uuid) st in
  sessions st' = set_property (sessions st) uuid (mkSession sock (requested c))
  /\ connections st' !! sock = Some (mkConnection OPEN uuid (requested c))
  /\ (forall sock', sock' <> sock -> connections st' !! sock' = connections st !! sock')
  /\ issued (trace st') = issued (trace st) ++ [uuid].
Proof.
  intros Hc Hr st'. subst st'.
  remember (step (SocketOpened sock uuid) st) as st' eqn:Hst'.
  unfold step in Hst'.
  rewrite bool_decide_eq_true_2 in Hst' by (eapply lookup_lt_Some; eauto).
  unfold readyStateOf in Hst'. rewrite Hc, Hr in Hst'. simpl in Hst'.
  unfold exec, set_readyState, socket_onopen, with_closure, onServerEvent, log, emit,
    modify, bind, get in Hst'. simpl in Hst'.
  rewrite list_lookup_alter_eq, Hc in Hst'. simpl in Hst'.
  subst st'. simpl.
  split; [reflexivity|]. split; [|split].
  - rewrite !list_lookup_alter_eq, Hc. reflexivity.
  - intros sock' Hne. rewrite !list_lookup_alter_ne by congruence. reflexivity.
  - rewrite !issued_app. simpl. rewrite app_nil_r. reflexivity.
Qed.

Lemma step_opened_ignored sock uuid st :
  (forall c, connections st !! sock = Some c -> readyState c <> CONNECTING) ->
  step (SocketOpened sock uuid) st = st.
Proof.
  intros H. unfold step, readyStateOf.
  destruct (connections st !! sock) as [c|] eqn:Hc.
  - specialize (H c eq_refl). apply Nat.eqb_neq in H. rewrite H, andb_false_r. reflexivity.
  - apply lookup_ge_None in Hc.
    rewrite bool_decide_eq_false_2 by lia. reflexivity.
Qed.

(** The platform closes a socket: the callback removes the key its
    [sessionId] variable holds. *)
Lemma step_closed sock code st c :
  connections st !! sock = Some c -> readyState c <> CLOSED ->
  let st' := step (SocketClosed sock code) st in
  sessions st' = delete_property (sessions st) (sessionIdVar c)
  /\ connections st' !! sock = Some (mkConnection CLOSED (sessionIdVar c) (requested c))
  /\ (forall sock', sock' <> sock -> connections st' !! sock' = connections st !! sock')
  /\ issued (trace st') = issued (trace st).
Proof.
  intros Hc Hr st'. subst st'.
  remember (step (SocketClosed sock code) st) as st' eqn:Hst'.
  unfold step in Hst'.
  rewrite bool_decide_eq_true_2 in Hst' by (eapply lookup_lt_Some; eauto).
  unfold readyStateOf in Hst'. rewrite Hc in Hst'.
  replace (readyState c =? CLOSED) with false in Hst'
    by (symmetry; apply Nat.eqb_neq; exact Hr).
  simpl in Hst'.
  unfold exec, set_readyState, socket_onclose, with_closure, onServerEvent, log, emit,
    modify, bind, get in Hst'. simpl in Hst'.
  rewrite list_lookup_alter_eq, Hc in Hst'. simpl in Hst'.
  subst st'. simpl.
  split; [reflexivity|]. split; [|split].
  - rewrite !list_lookup_alter_eq, Hc. reflexivity.
  - intros sock' Hne. rewrite !list_lookup_alter_ne by congruence. reflexivity.
  - rewrite !issued_app. simpl. rewrite !app_nil_r. reflexivity.
Qed.

Lemma step_closed_ignored sock code st :
  (forall c, connections st !! sock = Some c -> readyState c = CLOSED) ->
  step (SocketClosed sock code) st = st.
Proof.
  intros H. unfold step, readyStateOf.
  destruct (connections st !! sock) as [c|] eqn:Hc.
  - rewrite (H c eq_refl). simpl. rewrite andb_false_r. reflexivity.
  - apply lookup_ge_None in Hc.
    rewrite bool_decide_eq_false_2 by lia. reflexivity.
Qed.

Lemma own_property_delete_Some {A} (o : dictionary A) k k' v :
  own_property (delete_property o k) k' = Some v -> own_property o k' = Some v.
Proof. rewrite own_property_delete. destruct (String.eqb k k'); [discriminate | auto]. Qed.

Lemma evolves_alter_readyState v sock l :
  v <> CONNECTING ->
  evolves l (alter (fun c => mkConnection v (sessionIdVar c) (requested c)) sock l).
Proof.
  intros Hv sock' c Hc.
  destruct (decide (sock' = sock)) as [->|Hne].
  - eexists. rewrite list_lookup_alter_eq, Hc. simpl. auto.
  - exists c. rewrite list_lookup_alter_ne by congruence. auto.
Qed.

(** Every input other than the opening of a socket hands out nothing,
    adds no key to the registry, and keeps the existing sockets. *)
Lemma step_shrinks i st :
  (forall sock uuid, i <> SocketOpened sock uuid) ->
  issued (trace (step i st)) = issued (trace st)
  /\ (forall id s, own_property (sessions (step i st)) id = Some s ->
                   own_property (sessions st) id = Some s)
  /\ evolves (connections st) (connections (step i st)).
Proof.
  intros Hi.
  assert (Hsame : forall st', same_world st st' ->
            issued (trace st') = issued (trace st)
            /\ (forall id s, own_property (sessions st') id = Some s ->
                             own_property (sessions st) id = Some s)
            /\ evolves (connections st) (connections st')).
  { intros st' (Hs & Hc & Ht). rewrite Hs, Hc, Ht.
    split; [reflexivity|]. split; [auto | apply evolves_refl]. }
  destruct i as [req up | sock uuid | sock data | sock type msg | sock code
                | m id f | m f | m my f | m ids f | id code reason | o | | o | n o].
  - (* a request *)
    simpl. unfold exec.
    destruct (decide (upgrade req = Some "websocket")) as [Hup|Hup].
    + destruct up as [|e].
      * rewrite handler_upgraded by exact Hup. simpl.
        rewrite !issued_app. simpl. rewrite app_nil_r.
        split; [reflexivity|]. split; [auto|].
        intros sock c Hc. exists c. split; [apply lookup_app_l_Some; exact Hc | auto].
      * rewrite handler_upgrade_throws by exact Hup. apply Hsame.
        repeat split. simpl. rewrite !issued_app. simpl. apply app_nil_r.
    + rewrite handler_not_upgrade by exact Hup. apply Hsame.
      repeat split. simpl. rewrite !issued_app. simpl. apply app_nil_r.
  - exfalso. eapply Hi. reflexivity.
  - simpl. apply Hsame, same_world_exec.
    apply (callbacks_same_world sock EmptyString None data).
  - simpl. apply Hsame, same_world_exec. apply (callbacks_same_world sock type msg EmptyString).
  - (* a socket closes *)
    destruct (connections st !! sock) as [c|] eqn:Hc.
    + destruct (decide (readyState c = CLOSED)) as [Hr|Hr].
      * rewrite step_closed_ignored; [apply Hsame, same_world_refl|].
        intros c' Hc'. congruence.
      * destruct (step_closed sock code st c Hc Hr) as (Hs & Hsock & Hother & Ht).
        split; [exact Ht|]. split.
        -- intros id s. rewrite Hs. apply own_property_delete_Some.
        -- intros sock' c' Hc'. destruct (decide (sock' = sock)) as [->|Hne].
           ++ eexists. split; [exact Hsock|]. simpl.
              split; [congruence | intros _; discriminate].
           ++ exists c'. rewrite (Hother sock' Hne). auto.
    + rewrite step_closed_ignored; [apply Hsame, same_world_refl|].
      intros c' Hc'. congruence.
  - simpl. apply Hsame, same_world_exec, sendMessage_same_world.
  - simpl. apply Hsame, same_world_exec. apply (broadcasts_same_world m EmptyString [] f).
  - simpl. apply Hsame, same_world_exec. apply (broadcasts_same_world m my [] f).
  - simpl. apply Hsame, same_world_exec. apply (broadcasts_same_world m EmptyString ids f).
  - (* disconnectSession *)
    simpl. unfold exec. rewrite disconnectSession_cases.
    destruct (get_property (sessions st) id) as [s| |];
      [|apply Hsame, same_world_refl..].
    destruct (close_rejection code reason) as [e|]; [apply Hsame, same_world_refl|].
    simpl. rewrite !issued_app. simpl. rewrite !app_nil_r.
    split; [reflexivity|]. split.
    + intros id' s'. apply own_property_delete_Some.
    + destruct (_ || _); [apply evolves_refl|].
      apply evolves_alter_readyState. discriminate.
  - simpl. apply Hsame, same_world_exec, restart_same_world.
  - simpl. apply Hsame, same_world_exec. apply (lifecycle_same_world Bound ShutdownAfterTeardown).
  - simpl. apply Hsame, same_world_exec. apply (lifecycle_same_world o ShutdownAfterTeardown).
  - simpl. destruct (suspended st !! n) as [k|]; [|apply Hsame, same_world_refl].
    apply Hsame.
    apply (proj2 (proj2 (lifecycle_same_world o k)) (with_suspended (delete n (suspended st)) st)).
Qed.

(** ** Identifiers over a whole run *)

Lemma uuids_app inputs inputs' : uuids (inputs ++ inputs') = uuids inputs ++ uuids inputs'.
Proof.
  induction inputs as [|i rest IH]; simpl; [reflexivity|].
  destruct i; simpl; rewrite ?IH; reflexivity.
Qed.

Lemma not_opening_uuids i : (forall sock uuid, i <> SocketOpened sock uuid) -> uuids [i] = [].
Proof. destruct i; try reflexivity. intros H. exfalso. eapply H. reflexivity. Qed.

Lemma opening_or_not i :
  (exists sock uuid, i = SocketOpened sock uuid)
  \/ (forall sock uuid, i <> SocketOpened sock uuid).
Proof. destruct i; try (right; discriminate). left. eauto. Qed.

Lemma consistent_more used more st : consistent used st -> consistent (used ++ more) st.
Proof.
  intros [Hsub Hreg]. split; [|exact Hreg].
  apply sublist_inserts_r. exact Hsub.
Qed.

Lemma step_consistent i used st :
  consistent used st -> consistent (used ++ uuids [i]) (step i st).
Proof.
  intros Hcons.
  destruct (opening_or_not i) as [(sock & uuid & ->)|Hi'].
  - destruct (connections st !! sock) as [c|] eqn:Hc.
    + destruct (decide (readyState c = CONNECTING)) as [Hr|Hr].
      * destruct (step_opened sock uuid st c Hc Hr) as (Hs & Hsock & Hother & Ht).
        destruct Hcons as [Hsub Hreg]. split.
        -- rewrite Ht. simpl. apply sublist_app; [exact Hsub | reflexivity].
        -- intros id s. rewrite Hs, own_property_set.
           destruct (String.eqb_spec uuid id) as [->|Hne].
           ++ intros [= <-]. simpl. eexists. split; [exact Hsock|]. simpl.
              split; [discriminate | reflexivity].
           ++ intros Hid. destruct (Hreg id s Hid) as (c0 & Hc0 & Hr0 & Hid0).
              exists c0. rewrite Hother; [auto|]. intros Heq. congruence.
      * rewrite step_opened_ignored; [apply consistent_more; exact Hcons|].
        intros c' Hc'. congruence.
    + rewrite step_opened_ignored; [apply consistent_more; exact Hcons|].
      intros c' Hc'. congruence.
  - destruct (step_shrinks i st Hi') as (Ht & Hs & Hev).
    destruct Hcons as [Hsub Hreg].
    rewrite (not_opening_uuids i Hi'), app_nil_r. split.
    + rewrite Ht. exact Hsub.
    + intros id s Hid. destruct (Hreg id s (Hs id s Hid)) as (c & Hc & Hr & Hidc).
      destruct (Hev _ _ Hc) as (c' & Hc' & Hid' & Hr'). exists c'.
      split; [exact Hc'|]. split; [auto | congruence].
Qed.

Lemma run_consistent inputs :
  forall used st, consistent used st -> consistent (used ++ uuids inputs) (run inputs st).
Proof.
  induction inputs as [|i rest IH]; intros used st Hcons.
  - simpl. rewrite app_nil_r. exact Hcons.
  - change (i :: rest) with ([i] ++ rest).
    rewrite uuids_app, app_assoc, run_app. apply IH.
    apply (step_consistent i used st Hcons).
Qed.

Lemma construct_consistent options outcome : consistent [] (construct options outcome).
Proof.
  split.
  - destruct outcome; simpl; constructor.
  - intros id s. destruct outcome; discriminate.
Qed.

(** A key the registry does not hold can only appear through the opening
    of a socket that is given that very value. *)
Lemma removed_stays later :
  forall st id,
    id ∉ uuids later ->
    own_property (sessions st) id = None ->
    own_property (sessions (run later st)) id = None.
Proof.
  induction later as [|i rest IH]; intros st id Hfresh Hnone; [exact Hnone|].
  change (i :: rest) with ([i] ++ rest) in *.
  rewrite uuids_app in Hfresh. rewrite run_app. apply IH.
  - intros Hin. apply Hfresh. apply elem_of_app. right. exact Hin.
  - simpl.
    destruct (opening_or_not i) as [(sock & uuid & ->)|Hi'].
    + assert (Hne : uuid <> id).
      { intros ->. apply Hfresh. apply elem_of_app. left. simpl. left. }
      destruct (connections st !! sock) as [c|] eqn:Hc.
      * destruct (decide (readyState c = CONNECTING)) as [Hr|Hr].
        -- destruct (step_opened sock uuid st c Hc Hr) as (Hs & _).
           rewrite Hs, own_property_set.
           destruct (String.eqb_spec uuid id); [congruence | exact Hnone].
        -- rewrite step_opened_ignored; [exact Hnone|]. intros c' Hc'. congruence.
      * rewrite step_opened_ignored; [exact Hnone|]. intros c' Hc'. congruence.
    + destruct (step_shrinks i st Hi') as (_ & Hs & _).
      destruct (own_property (sessions (step i st)) id) as [s|] eqn:Hid; [|reflexivity].
      rewrite (Hs id s Hid) in Hnone. discriminate.
Qed.

Lemma descends_refl l : descends l l.
Proof. intros sock c Hc. right. exists c. auto. Qed.

Lemma descends_alter_readyState v sock l :
  v <> CONNECTING ->
  descends l (alter (fun c => mkConnection v (sessionIdVar c) (requested c)) sock l).
Proof.
  intros Hv sock' c' Hc'. right.
  destruct (decide (sock' = sock)) as [->|Hne].
  - rewrite list_lookup_alter_eq in Hc'.
    destruct (l !! sock) as [c|] eqn:Hc; [|discriminate].
    simpl in Hc'. injection Hc' as <-. exists c. simpl.
    split; [reflexivity|]. split; [reflexivity | intros H; contradiction].
  - rewrite list_lookup_alter_ne in Hc' by congruence. exists c'. auto.
Qed.

(** Every input other than the opening of a socket sets no [sessionId]
    variable: the sockets that hold one afterwards held it before. *)
Lemma step_descends i st :
  (forall sock uuid, i <> SocketOpened sock uuid) ->
  descends (connections st) (connections (step i st)).
Proof.
  intros Hi.
  assert (Hsame : forall st', same_world st st' ->
            descends (connections st) (connections st')).
  { intros st' (_ & Hc & _). rewrite Hc. apply descends_refl. }
  destruct i as [req up | sock uuid | sock data | sock type msg | sock code
                | m id f | m f | m my f | m ids f | id code reason | o | | o | n o].
  - simpl. unfold exec.
    destruct (decide (upgrade req = Some "websocket")) as [Hup|Hup].
    + destruct up as [|e].
      * rewrite handler_upgraded by exact Hup. simpl.
        intros sock c' Hc'. apply lookup_app_Some in Hc' as [Hc'|[_ Hc']].
        -- right. exists c'. auto.
        -- left. apply list_lookup_singleton_Some in Hc' as [_ <-]. reflexivity.
      * rewrite handler_upgrade_throws by exact Hup. apply Hsame.
        repeat split. simpl. rewrite !issued_app. simpl. apply app_nil_r.
    + rewrite handler_not_upgrade by exact Hup. apply Hsame.
      repeat split. simpl. rewrite !issued_app. simpl. apply app_nil_r.
  - exfalso. eapply Hi. reflexivity.
  - simpl. apply Hsame, same_world_exec.
    apply (callbacks_same_world sock EmptyString None data).
  - simpl. apply Hsame, same_world_exec. apply (callbacks_same_world sock type msg EmptyString).
  - destruct (connections st !! sock) as [c|] eqn:Hc.
    + destruct (decide (readyState c = CLOSED)) as [Hr|Hr].
      * rewrite step_closed_ignored; [apply descends_refl|].
        intros c' Hc'. congruence.
      * destruct (step_closed sock code st c Hc Hr) as (_ & Hsock & Hother & _).
        intros sock' c' Hc'. right. destruct (decide (sock' = sock)) as [->|Hne].
        -- rewrite Hsock in Hc'. injection Hc' as <-. exists c. simpl.
           split; [exact Hc|]. split; [reflexivity | discriminate].
        -- rewrite (Hother sock' Hne) in Hc'. exists c'. auto.
    + rewrite step_closed_ignored; [apply descends_refl|].
      intros c' Hc'. congruence.
  - simpl. apply Hsame, same_world_exec, sendMessage_same_world.
  - simpl. apply Hsame, same_world_exec. apply (broadcasts_same_world m EmptyString [] f).
  - simpl. apply Hsame, same_world_exec. apply (broadcasts_same_world m my [] f).
  - simpl. apply Hsame, same_world_exec. apply (broadcasts_same_world m EmptyString ids f).
  - simpl. unfold exec. rewrite disconnectSession_cases.
    destruct (get_property (sessions st) id) as [s| |];
      [|apply Hsame, same_world_refl..].
    destruct (close_rejection code reason) as [e|]; [apply Hsame, same_world_refl|].
    simpl. destruct (_ || _); [apply descends_refl|].
    apply descends_alter_readyState. discriminate.
  - simpl. apply Hsame, same_world_exec, restart_same_world.
  - simpl. apply Hsame, same_world_exec. apply (lifecycle_same_world Bound ShutdownAfterTeardown).
  - simpl. apply Hsame, same_world_exec. apply (lifecycle_same_world o ShutdownAfterTeardown).
  - simpl. destruct (suspended st !! n) as [k|]; [|apply Hsame, same_world_refl].
    apply Hsame.
    apply (proj2 (proj2 (lifecycle_same_world o k)) (with_suspended (delete n (suspended st)) st)).
Qed.

Lemma held_once_more used more st : held_once used st -> held_once (used ++ more) st.
Proof.
  intros [Hblank Hused Hone]. split; [exact Hblank | | exact Hone].
  intros sock c Hc Hne. apply elem_of_app. left. eauto.
Qed.

Lemma step_held_once i used st :
  NoDup (used ++ uuids [i]) ->
  held_once used st -> held_once (used ++ uuids [i]) (step i st).
Proof.
  intros Hnodup Hheld.
  destruct (opening_or_not i) as [(sock & uuid & ->)|Hi'].
  - destruct (connections st !! sock) as [c|] eqn:Hc.
    + destruct (decide (readyState c = CONNECTING)) as [Hr|Hr].
      * destruct (step_opened sock uuid st c Hc Hr) as (_ & Hsock & Hother & _).
        destruct Hheld as [Hblank Hused Hone].
        assert (Hfresh : uuid ∉ used).
        { simpl in Hnodup. apply NoDup_app in Hnodup as (_ & Hdisjoint & _).
          intros Hin. apply (Hdisjoint uuid Hin). left. }
        assert (Hold : forall sock' c', sock' <> sock ->
                  connections (step (SocketOpened sock uuid) st) !! sock' = Some c' ->
                  sessionIdVar c' <> EmptyString -> sessionIdVar c' <> uuid).
        { intros sock' c' Hne Hc' Hset Heq. rewrite (Hother sock' Hne) in Hc'.
          apply Hfresh. rewrite <- Heq. eauto. }
        split.
        -- intros sock' c' Hc' Hr'. destruct (decide (sock' = sock)) as [->|Hne].
           ++ rewrite Hsock in Hc'. injection Hc' as <-. discriminate.
           ++ rewrite (Hother sock' Hne) in Hc'. eauto.
        -- intros sock' c' Hc' Hset. apply elem_of_app.
           destruct (decide (sock' = sock)) as [->|Hne].
           ++ rewrite Hsock in Hc'. injection Hc' as <-. right. left.
           ++ rewrite (Hother sock' Hne) in Hc'. left. eauto.
        -- intros sock1 sock2 c1 c2 H1 H2 Hset Heq.
           destruct (decide (sock1 = sock)) as [->|Hne1];
             destruct (decide (sock2 = sock)) as [->|Hne2]; [reflexivity | | |].
           ++ exfalso. rewrite Hsock in H1. injection H1 as <-. simpl in Heq, Hset.
              apply (Hold sock2 c2 Hne2 H2); congruence.
           ++ exfalso. rewrite Hsock in H2. injection H2 as <-. simpl in Heq.
              apply (Hold sock1 c1 Hne1 H1); congruence.
           ++ rewrite (Hother sock1 Hne1) in H1. rewrite (Hother sock2 Hne2) in H2. eauto.
      * rewrite step_opened_ignored; [apply held_once_more; exact Hheld|].
        intros c' Hc'. congruence.
    + rewrite step_opened_ignored; [apply held_once_more; exact Hheld|].
      intros c' Hc'. congruence.
  - pose proof (step_descends i st Hi') as Hd.
    destruct Hheld as [Hblank Hused Hone].
    rewrite (not_opening_uuids i Hi'), app_nil_r. split.
    + intros sock c' Hc' Hr'.
      destruct (Hd sock c' Hc') as [Hb|(c & Hc & Hid & Hr)]; [exact Hb|].
      rewrite <- Hid. eauto.
    + intros sock c' Hc' Hset.
      destruct (Hd sock c' Hc') as [Hb|(c & Hc & Hid & _)]; [contradiction|].
      rewrite <- Hid. apply (Hused sock c Hc). congruence.
    + intros sock1 sock2 c1' c2' H1 H2 Hset Heq.
      destruct (Hd sock1 c1' H1) as [Hb|(c1 & Hc1 & Hid1 & _)]; [contradiction|].
      destruct (Hd sock2 c2' H2) as [Hb|(c2 & Hc2 & Hid2 & _)]; [congruence|].
      apply (Hone sock1 sock2 c1 c2 Hc1 Hc2); congruence.
Qed.

Lemma run_held_once inputs :
  forall used st,
    NoDup (used ++ uuids inputs) ->
    held_once used st -> held_once (used ++ uuids inputs) (run inputs st).
Proof.
  induction inputs as [|i rest IH]; intros used st Hnodup Hheld.
  - simpl. rewrite app_nil_r. exact Hheld.
  - change (i :: rest) with ([i] ++ rest) in *.
    rewrite uuids_app, app_assoc in *. rewrite run_app. apply IH; [exact Hnodup|].
    apply step_held_once; [|exact Hheld].
    apply NoDup_app in Hnodup as (H & _ & _). exact H.
Qed.

Lemma construct_held_once options outcome : held_once [] (construct options outcome).
Proof. split; destruct outcome; simpl; intros; discriminate. Qed.

(** A socket whose callbacks hold an identifier holds it from then on. *)
Lemma run_keeps_holder later :
  forall used st sock c,
    NoDup (used ++ uuids later) ->
    held_once used st ->
    connections st !! sock = Some c ->
    sessionIdVar c <> EmptyString ->
    exists c', connections (run later st) !! sock = Some c'
               /\ sessionIdVar c' = sessionIdVar c.
Proof.
  induction later as [|i rest IH]; intros used st sock c Hnodup Hheld Hc Hset.
  - exists c. auto.
  - change (i :: rest) with ([i] ++ rest) in *.
    rewrite uuids_app, app_assoc in Hnodup. rewrite run_app.
    assert (Hnodup' : NoDup (used ++ uuids [i])).
    { apply NoDup_app in Hnodup as (H & _ & _). exact H. }
    assert (Hstep : exists c', connections (step i st) !! sock = Some c'
                               /\ sessionIdVar c' = sessionIdVar c).
    { destruct (opening_or_not i) as [(sock0 & uuid & ->)|Hi'].
      - destruct (connections st !! sock0) as [c0|] eqn:Hc0.
        + destruct (decide (readyState c0 = CONNECTING)) as [Hr|Hr].
          * destruct (step_opened sock0 uuid st c0 Hc0 Hr) as (_ & _ & Hother & _).
            destruct (decide (sock = sock0)) as [->|Hne].
            -- exfalso. apply Hset.
               apply (unopened_blank used st Hheld sock0 c); congruence.
            -- exists c. rewrite (Hother sock Hne). auto.
          * rewrite step_opened_ignored; [eauto|]. intros c' Hc'. congruence.
        + rewrite step_opened_ignored; [eauto|]. intros c' Hc'. congruence.
      - destruct (step_shrinks i st Hi') as (_ & _ & Hev).
        destruct (Hev sock c Hc) as (c' & Hc' & Hid & _). eauto. }
    destruct Hstep as (c1 & Hc1 & Hid1).
    destruct (IH (used ++ uuids [i]) (step i st) sock c1 Hnodup
                (step_held_once i used st Hnodup' Hheld) Hc1) as (c' & Hc' & Hid').
    + congruence.
    + exists c'. split; [exact Hc' | congruence].
Qed.

(** C9.  The values [crypto.randomUUID()] returns over the lifetime of the
    instance being pairwise distinct, as the generator promises: the
    identifiers handed out by the open callback are pairwise distinct; no
    identifier belongs to more than one connection at a time, that is, two
    sockets whose callbacks hold the same identifier are one socket, and
    the socket of a registry entry is the only one whose callbacks hold
    the entry's key; an identifier that was handed out and is no longer
    registered never becomes registered again; and an identifier that a
    connection has held is never held by a different connection later.
    (The [sessionId] variable of a socket that has not opened is the
    empty string, which is no identifier.) *)
Theorem identifiers_distinct_when_uuids_are
    (options : IWebSocketServerOptions) (outcome : serve_result) (inputs : list input) :
  NoDup (uuids inputs) ->
  let st := run inputs (construct options outcome) in
  NoDup (issued (trace st))
  /\ (forall sock1 sock2 c1 c2,
        connections st !! sock1 = Some c1 ->
        connections st !! sock2 = Some c2 ->
        sessionIdVar c1 <> EmptyString ->
        sessionIdVar c1 = sessionIdVar c2 -> sock1 = sock2)
  /\ (forall id s sock c,
        own_property (sessions st) id = Some s ->
        id <> EmptyString ->
        connections st !! sock = Some c ->
        sessionIdVar c = id -> sock = socket s)
  /\ (forall earlier later id,
        inputs = earlier ++ later ->
        id ∈ issued (trace (run earlier (construct options outcome))) ->
        own_property (sessions (run earlier (construct options outcome))) id = None ->
        own_property (sessions st) id = None)
  /\ (forall earlier later sock sock' c c',
        inputs = earlier ++ later ->
        connections (run earlier (construct options outcome)) !! sock = Some c ->
        sessionIdVar c <> EmptyString ->
        connections st !! sock' = Some c' ->
        sessionIdVar c' = sessionIdVar c -> sock' = sock).
Proof.
  intros Hnodup st.
  pose proof (run_consistent inputs [] _ (construct_consistent options outcome)) as Hcons.
  simpl in Hcons. fold st in Hcons. destruct Hcons as [Hsub Hreg].
  pose proof (run_held_once inputs [] _ Hnodup (construct_held_once options outcome)) as Hheld.
  simpl in Hheld. fold st in Hheld. destruct Hheld as [Hblank Hused Hone].
  split; [|split; [|split; [|split]]].
  - eapply sublist_NoDup; [exact Hnodup | exact Hsub].
  - exact Hone.
  - intros id s sock c Hid Hne Hc Heq.
    destruct (Hreg id s Hid) as (c0 & Hc0 & _ & Hid0).
    apply (Hone sock (socket s) c c0 Hc Hc0); congruence.
  - intros earlier later id -> Hissued Hgone.
    unfold st. rewrite run_app. apply removed_stays; [|exact Hgone].
    pose proof (run_consistent earlier [] _ (construct_consistent options outcome)) as He.
    simpl in He. destruct He as [Hsub' _].
    rewrite uuids_app in Hnodup. apply NoDup_app in Hnodup.
    destruct Hnodup as (_ & Hdisjoint & _). apply Hdisjoint.
    eapply elem_of_sublist; eauto.
  - intros earlier later sock sock' c c' -> Hc Hset Hc' Heq.
    rewrite uuids_app in Hnodup.
    assert (Hearlier : held_once (uuids earlier) (run earlier (construct options outcome))).
    { apply (run_held_once earlier [] _); [|apply construct_held_once].
      apply NoDup_app in Hnodup as (H & _ & _). exact H. }
    destruct (run_keeps_holder later (uuids earlier) _ sock c Hnodup Hearlier Hc Hset)
      as (c1 & Hc1 & Hid1).
    unfold st in Hc', Hone. rewrite run_app in Hc', Hone.
    symmetry. apply (Hone sock sock' c1 c' Hc1 Hc'); congruence.
Qed.

Lemma identifiers_distinct_when_uuids_are_witness :
  let st :=
    run [ Incoming (upgrade_request (Some "chatv1")) Upgraded;
          Incoming (upgrade_request (Some "chatv1, v2")) Upgraded;
          Incoming (upgrade_request None) Upgraded;
          SocketOpened 0 "S1"; SocketOpened 1 "S2"; SocketOpened 2 "S3" ]
        (construct example_options Bound) in
  NoDup (issued (trace st))
  /\ (forall sock c, connections st !! sock = Some c -> sessionIdVar c = "S2" -> sock = 1).
Proof.
  intros st.
  destruct (identifiers_distinct_when_uuids_are
              example_options Bound
              [ Incoming (upgrade_request (Some "chatv1")) Upgraded;
                Incoming (upgrade_request (Some "chatv1, v2")) Upgraded;
                Incoming (upgrade_request None) Upgraded;
                SocketOpened 0 "S1"; SocketOpened 1 "S2"; SocketOpened 2 "S3" ])
    as (Hissued & _ & Hentry & _).
  - simpl. apply (bool_decide_unpack _). vm_compute. exact I.
  - split; [exact Hissued|].
    intros sock c Hc Hid.
    refine (Hentry "S2" (mkSession 1 ["chatv1"; "v2"]) sock c _ _ Hc Hid).
    + vm_compute. reflexivity.
    + discriminate.
Defined.

(** ** Sending to a group *)

Lemma sendMessage_not_inherited message id filter st :
  get_property (sessions st) id <> Inherited ->
  fst (sendMessage message id filter st) = Normal (would_send st message filter id).
Proof.
  intros Hget. unfold would_send, returned_true. rewrite sendMessage_cases.
  destruct (get_property (sessions st) id) as [s| |]; [|congruence|reflexivity].
  destruct (negb _ && _); reflexivity.
Qed.

(** The loop over any list of identifiers none of which reads an inherited
    member: it completes, counting the calls that returned true. *)
Lemma sendToEach_general message filter st :
  forall ids sent t,
    Forall (fun id => get_property (sessions st) id <> Inherited) ids ->
    sendToEach message ids filter sent (with_trace (trace st ++ t) st)
    = (Normal (sent + length (List.filter (would_send st message filter) ids)),
       with_trace (trace st ++ t ++ deliveries message filter st ids) st).
Proof.
  induction ids as [|id rest IH]; intros sent t Hok; simpl.
  - unfold ret. rewrite Nat.add_0_r, app_nil_r. reflexivity.
  - inversion Hok as [|? ? Hid Hrest]; subst.
    unfold bind at 1. rewrite sendMessage_after_trace. simpl.
    rewrite (sendMessage_not_inherited _ _ _ _ Hid).
    rewrite IH by exact Hrest. rewrite <- !app_assoc.
    destruct (would_send st message filter id); simpl; f_equal; f_equal; lia.
Qed.

(** The loop stops at the first identifier that reads an inherited member. *)
Lemma sendToEach_stops message filter st bad :
  get_property (sessions st) bad = Inherited ->
  forall before after sent t,
    Forall (fun id => get_property (sessions st) id <> Inherited) before ->
    sendToEach message (before ++ bad :: after) filter sent (with_trace (trace st ++ t) st)
    = (Throw (TypeError "Cannot read properties of undefined (reading 'readyState')"),
       with_trace (trace st ++ t ++ deliveries message filter st before) st).
Proof.
  intros Hbad. induction before as [|id rest IH]; intros after sent t Hok; simpl.
  - unfold bind. rewrite sendMessage_cases. simpl. rewrite Hbad, app_nil_r. reflexivity.
  - inversion Hok as [|? ? Hid Hrest]; subst.
    unfold bind at 1. rewrite sendMessage_after_trace. simpl.
    rewrite (sendMessage_not_inherited _ _ _ _ Hid).
    rewrite IH by exact Hrest. rewrite <- !app_assoc. reflexivity.
Qed.

(** X1. [sendMessageToGroup] over identifiers none of which names an
    unregistered member of [Object.prototype]: it visits the list in the
    order given and returns the number of positions for which
    [sendMessage] returned true.  An identifier listed twice is sent to
    twice, and one that is not registered is skipped. *)
Theorem sendMessageToGroup_counts
    (message : string) (toSessionIds : list string)
    (filter : option TWebSocketServerSessionSubprotocols) (st : WebSocketServer) :
  Forall (fun id => get_property (sessions st) id <> Inherited) toSessionIds ->
  let n := length (List.filter (would_send st message filter) toSessionIds) in
  sendMessageToGroup message toSessionIds filter st
  = (Normal n,
     with_trace
       (trace st ++ deliveries message filter st toSessionIds
        ++ [LogCall LogV (tag st) "Message sent to group"
              [("sent", Num n); ("message", Str message);
               ("sessionIds", Strs toSessionIds)]]) st)
  /\ (forall id, own_property (sessions st) id = None -> would_send st message filter id = false)
  /\ (forall id, would_send st message filter id = true ->
        fst (sendMessageToGroup message [id; id] filter st) = Normal 2).
Proof.
  intros Hok n.
  assert (Hgroup : forall ids,
            Forall (fun id => get_property (sessions st) id <> Inherited) ids ->
            sendMessageToGroup message ids filter st
            = (Normal (length (List.filter (would_send st message filter) ids)),
               with_trace
                 (trace st ++ deliveries message filter st ids
                  ++ [LogCall LogV (tag st) "Message sent to group"
                        [("sent", Num (length (List.filter (would_send st message filter) ids)));
                         ("message", Str message); ("sessionIds", Strs ids)]]) st)).
  { intros ids Hids.
    pose proof (sendToEach_general message filter st ids 0 [] Hids) as H.
    rewrite app_nil_r, with_trace_same in H. simpl in H.
    unfold sendMessageToGroup, bind. rewrite H.
    unfold log, emit, modify, bind, get, ret. simpl.
    rewrite <- app_assoc. reflexivity. }
  split; [apply Hgroup; exact Hok|]. split.
  - intros id Hnone. unfold would_send, returned_true. rewrite sendMessage_cases.
    unfold get_property. rewrite Hnone. destruct (existsb _ _); reflexivity.
  - intros id Hid. rewrite Hgroup.
    + simpl. rewrite Hid. reflexivity.
    + assert (Hne : get_property (sessions st) id <> Inherited).
      { intros Hinh. unfold would_send, returned_true in Hid.
        rewrite sendMessage_cases, Hinh in Hid. discriminate. }
      repeat constructor; exact Hne.
Qed.

Lemma sendMessageToGroup_counts_witness :
  fst (sendMessageToGroup "hello" ["S2"; "nobody"; "S2"] None three_clients) = Normal 2.
Proof.
  pose proof (sendMessageToGroup_counts "hello" ["S2"; "nobody"; "S2"] None three_clients) as H.
  destruct H as [H _].
  - repeat constructor; vm_compute; discriminate.
  - rewrite H. reflexivity.
Defined.

(** X2. [sendMessageToGroup] is not all-or-nothing: when the list reaches
    an identifier that names an unregistered member of [Object.prototype],
    the call throws a [TypeError] there; the sessions listed before it have
    already been sent to, those after it are not visited, and no count is
    returned or logged. *)
Theorem sendMessageToGroup_stops_midway
    (message bad : string) (before after : list string)
    (filter : option TWebSocketServerSessionSubprotocols) (st : WebSocketServer) :
  Forall (fun id => get_property (sessions st) id <> Inherited) before ->
  get_property (sessions st) bad = Inherited ->
  sendMessageToGroup message (before ++ bad :: after) filter st
  = (Throw (TypeError "Cannot read properties of undefined (reading 'readyState')"),
     with_trace (trace st ++ deliveries message filter st before) st).
Proof.
  intros Hok Hbad.
  pose proof (sendToEach_stops message filter st bad Hbad before after 0 [] Hok) as H.
  rewrite app_nil_r, with_trace_same in H. simpl in H.
  unfold sendMessageToGroup, bind. rewrite H. reflexivity.
Qed.

Lemma sendMessageToGroup_stops_midway_witness :
  let r := sendMessageToGroup "hello" ["S1"; "toString"; "S2"] None three_clients in
  fst r = Throw (TypeError "Cannot read properties of undefined (reading 'readyState')")
  /\ added three_clients (snd r)
     = [ SocketSend 0 "hello";
         LogCall LogV "WebSocketServer->main" "Sent message"
           [("toSessionId", Str "S1"); ("message", Str "hello")] ].
Proof.
  intros r. unfold r.
  change ["S1"; "toString"; "S2"] with (["S1"] ++ "toString" :: ["S2"]).
  rewrite (sendMessageToGroup_stops_midway "hello" "toString" ["S1"] ["S2"] None three_clients).
  - split; reflexivity.
  - repeat constructor; vm_compute; discriminate.
  - reflexivity.
Defined.

(** ** What sending leaves alone *)

Lemma only_sends_refl st : only_sends st st.
Proof. exists []. rewrite app_nil_r, with_trace_same. split; [reflexivity | constructor]. Qed.

Lemma only_sends_trans a b c : only_sends a b -> only_sends b c -> only_sends a c.
Proof.
  intros (t1 & -> & H1) (t2 & -> & H2). exists (t1 ++ t2). simpl.
  rewrite <- app_assoc. split; [reflexivity | apply Forall_app; auto].
Qed.

Lemma sendMessage_only_sends message id filter :
  respects only_sends (sendMessage message id filter).
Proof.
  intros st. rewrite sendMessage_cases.
  destruct (get_property (sessions st) id) as [s| |]; try apply only_sends_refl.
  destruct (negb _ && _); [|apply only_sends_refl].
  simpl. eexists. split; [reflexivity|]. repeat constructor.
Qed.

Lemma sendToEach_only_sends message filter ids :
  forall sent, respects only_sends (sendToEach message ids filter sent).
Proof.
  induction ids as [|id rest IH]; intros sent; simpl.
  - apply respects_ret, only_sends_refl.
  - apply respects_bind;
      [apply only_sends_trans | apply sendMessage_only_sends | intros ok; apply IH].
Qed.

Lemma log_verbose_only_sends text data : respects only_sends (log LogV text data).
Proof.
  intros st. unfold log, emit, modify, bind, get. simpl.
  eexists. split; [reflexivity|]. repeat constructor.
Qed.

(** X3. The four sending operations change nothing but the trace, and
    what they append is only calls to [socket.send] and verbose log lines:
    the registry, the sockets, the listener and the shutdown flag are as
    before, no socket is closed and the owner is not called, whether the
    operation returns or throws. *)
Theorem sending_only_appends_sends
    (message id mySessionId : string) (toSessionIds : list string)
    (filter : option TWebSocketServerSessionSubprotocols) :
  respects only_sends (sendMessage message id filter)
  /\ respects only_sends (sendMessageToAll message filter)
  /\ respects only_sends (sendMessageToOthers message mySessionId filter)
  /\ respects only_sends (sendMessageToGroup message toSessionIds filter).
Proof.
  split; [apply sendMessage_only_sends|]. split; [|split].
  - unfold sendMessageToAll. apply respects_get. intros st0.
    apply respects_bind; [apply only_sends_trans | apply sendToEach_only_sends | intros n].
    apply respects_bind; [apply only_sends_trans | apply log_verbose_only_sends | intros _].
    apply respects_ret, only_sends_refl.
  - unfold sendMessageToOthers. apply respects_get. intros st0.
    apply respects_bind; [apply only_sends_trans | | intros n].
    + intros st. rewrite sendToEachBut_filter. apply sendToEach_only_sends.
    + apply respects_bind; [apply only_sends_trans | apply log_verbose_only_sends | intros _].
      apply respects_ret, only_sends_refl.
  - unfold sendMessageToGroup.
    apply respects_bind; [apply only_sends_trans | apply sendToEach_only_sends | intros n].
    apply respects_bind; [apply only_sends_trans | apply log_verbose_only_sends | intros _].
    apply respects_ret, only_sends_refl.
Qed.

(** ** After a disconnect *)

Lemma disconnectSession_drops_key sessionId code reason st :
  close_rejection code reason = None ->
  sessionId ∉ keys (sessions (exec (disconnectSession sessionId code reason) st)).
Proof.
  intros Hok. unfold exec. rewrite disconnectSession_cases, Hok.
  destruct (get_property (sessions st) sessionId) as [s| |] eqn:Hget; simpl.
  - rewrite keys_delete. intros Hin. apply list_elem_of_In, filter_In in Hin.
    destruct Hin as [_ Hne]. rewrite String.eqb_refl in Hne. discriminate.
  - intros Hin. apply own_property_keys in Hin. destruct Hin as [s Hs].
    apply get_property_own in Hs. congruence.
  - intros Hin. apply own_property_keys in Hin. destruct Hin as [s Hs].
    apply get_property_own in Hs. congruence.
Qed.

(** X4. Once [disconnectSession(id, code, reason)] has run with a code and
    a reason that [socket.close] accepts, whether it returned or threw
    for an unknown identifier: [id] is not a key of the registry,
    [sendMessage] to it does not return true, and a following
    [sendMessageToAll] addresses nothing to it. *)
Theorem disconnected_session_not_addressed
    (sessionId message : string) (code : option nat) (reason : option string)
    (filter : option TWebSocketServerSessionSubprotocols) (st : WebSocketServer) :
  close_rejection code reason = None ->
  let st1 := exec (disconnectSession sessionId code reason) st in
  (sessionId ∉ keys (sessions st1))
  /\ would_send st1 message filter sessionId = false
  /\ Forall (fun e => ~ addressed_to sessionId e)
        (added st1 (exec (sendMessageToAll message filter) st1)).
Proof.
  intros Hok st1.
  pose proof (disconnectSession_drops_key sessionId code reason st Hok) as Hgone.
  fold st1 in Hgone. split; [exact Hgone|]. split.
  - unfold would_send, returned_true. rewrite sendMessage_cases.
    destruct (get_property (sessions st1) sessionId) as [s| |] eqn:Hget; try reflexivity.
    exfalso. apply Hgone. apply own_property_keys.
    apply get_property_own in Hget. eauto.
  - apply Forall_forall. intros e He (tg & m & ->).
    unfold exec in He. rewrite (sendMessageToAll_spec message filter st1) in He.
    simpl in He. rewrite added_with_trace in He.
    apply elem_of_app in He. destruct He as [He|He].
    + apply deliveries_origin in He. destruct He as (id & s & Hid & _ & He).
      unfold delivery in He. apply list_elem_of_In in He. simpl in He.
      destruct He as [He|[He|[]]]; [discriminate|].
      injection He as _ Hid'. subst id. exact (Hgone Hid).
    + apply list_elem_of_In in He. simpl in He. destruct He as [He|[]]. discriminate.
Qed.

Lemma disconnected_session_not_addressed_witness :
  let st1 := exec (disconnectSession "S2" (Some 1000) None) three_clients in
  added st1 (exec (sendMessageToAll "hello" None) st1)
  = [ SocketSend 0 "hello";
      LogCall LogV "WebSocketServer->main" "Sent message"
        [("toSessionId", Str "S1"); ("message", Str "hello")];
      SocketSend 2 "hello";
      LogCall LogV "WebSocketServer->main" "Sent message"
        [("toSessionId", Str "S3"); ("message", Str "hello")];
      LogCall LogV "WebSocketServer->main" "Message sent to all"
        [("sent", Num 2); ("message", Str "hello")] ]
  /\ Forall (fun e => ~ addressed_to "S2" e)
        (added st1 (exec (sendMessageToAll "hello" None) st1)).
Proof.
  intros st1. split; [reflexivity|].
  refine (proj2 (proj2 (disconnected_session_not_addressed
                          "S2" "hello" (Some 1000) None None three_clients _))).
  reflexivity.
Defined.

(** ** The handler, all outcomes *)

(** X5. The handler always completes normally, with status 101, 500 or
    501, and never touches the registry.  The status is 101 exactly when
    the upgrade header is "websocket" and the upgrade succeeds, and only
    then is a socket created; it starts out connecting, with an empty
    [sessionId] and the requested sub-protocol list in its callbacks. *)
Theorem handler_outcomes (req : Request) (outcome : upgrade_result) (st : WebSocketServer) :
  exists r st',
    handler req outcome st = (Normal r, st')
    /\ sessions st' = sessions st
    /\ (status r = 101 \/ status r = 500 \/ status r = 501)
    /\ (status r = 101 <-> upgrade req = Some "websocket" /\ outcome = Upgraded)
    /\ (status r = 101 ->
        connections st'
        = connections st ++ [mkConnection CONNECTING EmptyString (requestedSubprotocols req)])
    /\ (status r <> 101 -> connections st' = connections st).
Proof.
  destruct (decide (upgrade req = Some "websocket")) as [Hup|Hup].
  - destruct outcome as [|e].
    + eexists _, _. split; [apply handler_upgraded; exact Hup|]. simpl.
      repeat split; auto. intros H. congruence.
    + eexists _, _. split; [apply handler_upgrade_throws; exact Hup|]. simpl.
      repeat split; auto; try discriminate. intros [_ H]. discriminate.
  - eexists _, _. split; [apply handler_not_upgrade; exact Hup|]. simpl.
    repeat split; auto; try discriminate. intros [H _]. congruence.
Qed.

(** ** The tokens the handler keeps *)

Lemma comma_free_trimStart s : comma_free s = true -> comma_free (trimStart s) = true.
Proof.
  induction s as [|c rest IH]; simpl; [reflexivity|].
  intros H. destruct (is_white_space c); [|exact H].
  apply andb_true_iff in H. apply IH. tauto.
Qed.

Lemma comma_free_trimEnd s : comma_free s = true -> comma_free (trimEnd s) = true.
Proof.
  induction s as [|c rest IH]; simpl; [reflexivity|].
  intros H. apply andb_true_iff in H. destruct H as [Hc Hrest].
  specialize (IH Hrest). destruct (trimEnd rest) as [|c' kept].
  - destruct (is_white_space c); simpl; [reflexivity|]. rewrite Hc. reflexivity.
  - simpl in *. rewrite Hc, IH. reflexivity.
Qed.

(** X6. Every element of the requested sub-protocol list is a non-empty
    token without a comma and without white space at either end, whatever
    the header holds; a missing header gives the empty list. *)
Theorem requestedSubprotocols_clean (req : Request) (up : option string) :
  Forall clean_token (requestedSubprotocols req)
  /\ requestedSubprotocols (mkRequest up None) = [].
Proof.
  split; [|reflexivity].
  unfold requestedSubprotocols. apply Forall_forall. intros t Ht.
  apply list_elem_of_In, filter_In in Ht. destruct Ht as [Ht Hlen].
  apply in_map_iff in Ht. destruct Ht as (piece & <- & Hpiece).
  pose proof (split_comma_free (default EmptyString (secWebsocketProtocol req))) as Hfree.
  rewrite Forall_forall in Hfree. specialize (Hfree piece (proj2 (list_elem_of_In _ _) Hpiece)).
  destruct (proj2 (trimmed_of_trim (trim piece) piece) eq_refl)
    as (before & after & _ & _ & _ & Hs & He).
  repeat split; auto.
  - intros Hempty. rewrite Hempty in Hlen. discriminate.
  - unfold trim. apply comma_free_trimEnd, comma_free_trimStart. exact Hfree.
Qed.

Lemma append_assoc (a b c : string) : ((a ++ b) ++ c = a ++ (b ++ c))%string.
Proof.
  induction a as [|x a IH]; [reflexivity|].
  rewrite !append_cons, IH. reflexivity.
Qed.

Lemma append_empty_r (a : string) : (a ++ EmptyString)%string = a.
Proof. induction a as [|x a IH]; [reflexivity|]. rewrite append_cons, IH. reflexivity. Qed.

Lemma concat_spaced_tail t rest :
  String " " (String.concat ", " (t :: rest))
  = String.concat "," (map (String " ") (t :: rest)).
Proof.
  revert t. induction rest as [|t' rest IH]; intros t; [reflexivity|].
  change (String.concat ", " (t :: t' :: rest))
    with (t ++ String "," (String " " (String.concat ", " (t' :: rest))))%string.
  rewrite IH.
  change (String.concat "," (map (String " ") (t :: t' :: rest)))
    with (String " " t ++ String "," (String.concat "," (map (String " ") (t' :: rest))))%string.
  rewrite append_cons. reflexivity.
Qed.

Lemma concat_spaced tokens :
  String.concat ", " tokens = String.concat "," (spaced_pieces tokens).
Proof.
  destruct tokens as [|t [|t' rest]]; try reflexivity.
  change (String.concat ", " (t :: t' :: rest))
    with (t ++ String "," (String " " (String.concat ", " (t' :: rest))))%string.
  rewrite concat_spaced_tail. reflexivity.
Qed.

Lemma discard_empty_clean tokens : Forall clean_token tokens -> discard_empty tokens = tokens.
Proof.
  induction 1 as [|t rest [Hne _] _ IH]; simpl; [reflexivity|].
  destruct t; [congruence|]. rewrite IH. reflexivity.
Qed.

Lemma trimmed_of_clean t : clean_token t -> trimmed_of t t /\ trimmed_of t (String " " t).
Proof.
  intros (_ & _ & Hs & He). split.
  - exists EmptyString, EmptyString. rewrite append_empty, append_empty_r. auto.
  - exists (String " " EmptyString), EmptyString.
    rewrite append_cons, append_empty, append_empty_r. auto.
Qed.

(** X7. Parsing undoes joining: a header written as clean tokens joined by
    a comma and a space is read back as exactly those tokens, in order. *)
Theorem requestedSubprotocols_of_joined (tokens : list string) (up : option string) :
  Forall clean_token tokens ->
  requestedSubprotocols (mkRequest up (Some (String.concat ", " tokens))) = tokens.
Proof.
  intros Hclean. symmetry. apply requestedSubprotocols_spec. simpl.
  rewrite concat_spaced.
  destruct tokens as [|t rest].
  - exists [EmptyString], [EmptyString]. split; [|split]; try reflexivity.
    + split; [discriminate|]. split; [repeat constructor | reflexivity].
    + constructor; [|constructor].
      exists EmptyString, EmptyString. auto.
  - inversion Hclean as [|? ? Ht Hrest]; subst.
    exists (spaced_pieces (t :: rest)), (t :: rest). split; [|split].
    + split; [discriminate|]. split; [|reflexivity].
      simpl. constructor; [apply Ht|].
      apply Forall_forall. intros p Hp. apply list_elem_of_In, in_map_iff in Hp.
      destruct Hp as (t' & <- & Ht'). rewrite Forall_forall in Hrest.
      simpl. apply (Hrest t'). apply list_elem_of_In. exact Ht'.
    + simpl. constructor; [apply trimmed_of_clean; exact Ht|].
      clear Ht Hclean. induction Hrest as [|t' rest' Ht' _ IH]; simpl; constructor; auto.
      apply trimmed_of_clean. exact Ht'.
    + symmetry. apply discard_empty_clean. exact Hclean.
Qed.

Lemma requestedSubprotocols_of_joined_witness :
  requestedSubprotocols (mkRequest (Some "websocket") (Some "chatv1, v2, json.v3"))
  = ["chatv1"; "v2"; "json.v3"].
Proof.
  refine (requestedSubprotocols_of_joined ["chatv1"; "v2"; "json.v3"] (Some "websocket") _).
  repeat constructor; (discriminate || reflexivity).
Defined.

(** ** Lifecycle: whole sequences *)

(** Resuming the continuation that was parked last. *)
Lemma step_resume_parked st k n outcome :
  n = length (suspended st) ->
  step (Resume n outcome) (with_suspended (suspended st ++ [k]) st)
  = exec (resume k outcome) st.
Proof.
  intros ->. unfold step. simpl suspended.
  rewrite list_lookup_middle by reflexivity.
  rewrite delete_middle, app_nil_r.
  destruct st; reflexivity.
Qed.

Lemma restart_listening st l outcome :
  server st = Some l ->
  let st1 :=
    with_trace
      (trace st
       ++ [ LogCall LogI (tag st) "Restarting server" [("port", Num (port (options st)))];
            ListenerShutdown l ])
      (with_shouldShutDown false st) in
  exec (restart outcome) st
  = with_suspended (suspended st1 ++ [StartAfterTeardown true]) st1.
Proof.
  intros Hl. destruct st as [o sv ss fl cs ls su tr]. simpl in Hl. subst sv.
  unfold exec, restart, start, listener_shutdown, park, log, emit, modify, bind, get. simpl.
  rewrite <- app_assoc. reflexivity.
Qed.

Lemma start_serve_cases st outcome :
  exec (start_serve true outcome) st
  = match outcome with
    | Bound =>
        let st1 :=
          with_listeners (S (listeners st))
            (with_server (Some (listeners st))
               (with_trace (trace st ++ [DenoServe (port (options st)) (hostname (options st))])
                  st)) in
        with_suspended (suspended st1 ++ [RestartAfterStart]) st1
    | ServeThrows e =>
        let st1 :=
          with_trace
            (trace st
             ++ [ DenoServe (port (options st)) (hostname (options st));
                  OnServerEvent Error (Some e) None;
                  LogCall LogE (tag st) "Unable to start server"
                    [("port", Num (port (options st))); ("error", Str e)] ]) st in
        with_suspended (suspended st1 ++ [RestartAfterStart]) st1
    end.
Proof.
  destruct st as [o sv ss fl cs ls su tr].
  unfold exec, start_serve, serve, park, onServerEvent, log, emit, modify, bind, get.
  destruct outcome; simpl; rewrite <- ?app_assoc; reflexivity.
Qed.

(** [restart] on an instance that holds a listener, and its two
    continuations resumed one after the other. *)
Lemma restart_to_end st l first bound last :
  server st = Some l ->
  let n := length (suspended st) in
  let st' := step (Resume n last) (step (Resume n bound) (exec (restart first) st)) in
  trace st' = trace st ++ restart_report st l bound
  /\ server st' = match bound with Bound => Some (listeners st) | ServeThrows _ => Some l end
  /\ shouldShutDown st' = false
  /\ suspended st' = suspended st.
Proof.
  intros Hl n st'. subst st'.
  rewrite (restart_listening st l first Hl). cbv zeta.
  rewrite step_resume_parked by reflexivity.
  cbn [resume]. rewrite start_serve_cases.
  destruct bound as [|e]; cbv zeta; rewrite step_resume_parked by reflexivity;
    destruct st as [o sv ss fl cs ls su tr]; simpl in Hl; subst sv;
    unfold exec, resume, onServerEvent, emit, modify, restart_report; simpl;
    rewrite <- !app_assoc; auto.
Qed.

(** The listener's completion observed with the flag clear and keep-alive
    on, followed to the end of the restart it starts. *)
Lemma finished_to_end st l outcome bound last :
  shouldShutDown st = false ->
  keepAlive (options st) = true ->
  server st = Some l ->
  let n := length (suspended st) in
  let st' := run [ListenerFinished outcome; Resume n bound; Resume n last] st in
  added st st' = unexpected_termination st ++ restart_report st l bound
  /\ server st' = match bound with Bound => Some (listeners st) | ServeThrows _ => Some l end
  /\ shouldShutDown st' = false
  /\ suspended st' = suspended st.
Proof.
  intros Hflag Hkeep Hl n st'. subst st'.
  change (run [ListenerFinished outcome; Resume n bound; Resume n last] st)
    with (step (Resume n last) (step (Resume n bound) (exec (on_finished outcome) st))).
  assert (E : exec (on_finished outcome) st
              = exec (restart outcome) (with_trace (trace st ++ unexpected_termination st) st)).
  { unfold exec. rewrite on_finished_unexpected by exact Hflag. rewrite Hkeep. reflexivity. }
  rewrite E.
  pose proof (restart_to_end (with_trace (trace st ++ unexpected_termination st) st)
                l outcome bound last Hl) as (Ht & Hs & Hf & Hsu).
  split; [|split; [|split]]; [|exact Hs|exact Hf|exact Hsu].
  unfold added. subst n.
  etransitivity; [apply f_equal; exact Ht|].
  simpl trace. rewrite <- app_assoc, drop_app_length.
  destruct st; reflexivity.
Qed.

(** With keep-alive off the callback reports the termination and does
    nothing else: nothing is shut down, bound or parked. *)
Lemma finished_reports_only st outcome :
  shouldShutDown st = false ->
  keepAlive (options st) = false ->
  step (ListenerFinished outcome) st
  = with_trace (trace st ++ unexpected_termination st) st.
Proof.
  intros Hflag Hkeep. unfold step, exec.
  rewrite on_finished_unexpected by exact Hflag. rewrite Hkeep. reflexivity.
Qed.

(** *** The listener once bound *)

Lemma keeps_listener_refl st : keeps_listener st st.
Proof. intros H. exact H. Qed.

Lemma keeps_listener_trans a b c :
  keeps_listener a b -> keeps_listener b c -> keeps_listener a c.
Proof. unfold keeps_listener. auto. Qed.

Lemma emit_keeps_listener e : respects keeps_listener (emit e).
Proof. intros st H. exact H. Qed.

Lemma log_keeps_listener lvl text data : respects keeps_listener (log lvl text data).
Proof. unfold log. apply respects_get. intros st0. apply emit_keeps_listener. Qed.

Ltac listener_step :=
  lazymatch goal with
  | |- respects _ (bind get _) => apply respects_get; intros ?
  | |- respects _ (bind _ _) => apply respects_bind; [exact keeps_listener_trans | | intros ?]
  | |- respects _ (try_catch _ _) =>
      apply respects_try_catch; [exact keeps_listener_trans | | intros ?]
  | |- respects _ (ret _) => apply respects_ret; exact keeps_listener_refl
  | |- respects _ (throw _) => apply respects_throw; exact keeps_listener_refl
  | |- respects _ (modify _) =>
      apply respects_modify; intros ? ?; simpl; solve [assumption | eexists; reflexivity]
  | |- respects _ (onServerEvent _ _ _) => unfold onServerEvent
  | |- respects _ (emit _) => apply emit_keeps_listener
  | |- respects _ (log _ _ _) => apply log_keeps_listener
  | |- respects _ (match ?x with _ => _ end) => destruct x
  | |- respects _ _ => solve [eauto]
  end.

Ltac listener_frame := repeat listener_step.

Lemma sends_keep_listener message id mySessionId ids filter :
  respects keeps_listener (sendMessage message id filter)
  /\ respects keeps_listener (sendMessageToAll message filter)
  /\ respects keeps_listener (sendMessageToOthers message mySessionId filter)
  /\ respects keeps_listener (sendMessageToGroup message ids filter).
Proof.
  assert (Hone : forall m i f, respects keeps_listener (sendMessage m i f)).
  { intros m i f. unfold sendMessage, socket_send. listener_frame. }
  assert (Heach : forall m f l n, respects keeps_listener (sendToEach m l f n)).
  { intros m f l. induction l as [|x rest IH]; intros n; simpl; listener_frame. }
  assert (Hbut : forall m my f l n, respects keeps_listener (sendToEachBut m my l f n)).
  { intros m my f l. induction l as [|x rest IH]; intros n; simpl; listener_frame. }
  unfold sendMessageToAll, sendMessageToOthers, sendMessageToGroup.
  split; [apply Hone|]. split; [|split]; listener_frame.
Qed.

Lemma callbacks_keep_listener sock uuid code type message data v :
  respects keeps_listener (set_readyState sock v)
  /\ respects keeps_listener (socket_onopen sock uuid)
  /\ respects keeps_listener (socket_onclose sock code)
  /\ respects keeps_listener (socket_onerror sock type message)
  /\ respects keeps_listener (socket_onmessage sock data).
Proof.
  unfold set_readyState, socket_onopen, socket_onclose, socket_onerror, socket_onmessage,
    with_closure.
  split; [|split; [|split; [|split]]]; listener_frame.
Qed.

Lemma methods_keep_listener req up id code reason outcome k fromRestart :
  respects keeps_listener (handler req up)
  /\ respects keeps_listener (disconnectSession id code reason)
  /\ respects keeps_listener (start fromRestart outcome)
  /\ respects keeps_listener (resume k outcome)
  /\ respects keeps_listener shutdown.
Proof.
  unfold handler, upgradeWebSocket, install_callbacks, disconnectSession, socket_close,
    set_readyState, start, resume, start_serve, serve, shutdown, park, listener_shutdown.
  split; [|split; [|split; [|split]]]; listener_frame.
Qed.

Lemma restart_keeps_listener outcome :
  respects keeps_listener (restart outcome)
  /\ respects keeps_listener (on_finished outcome).
Proof.
  assert (Hstart : forall f o, respects keeps_listener (start f o)).
  { intros f o.
    apply (methods_keep_listener (mkRequest None None) Upgraded EmptyString None None
             o RestartAfterStart f). }
  assert (Hrestart : forall o, respects keeps_listener (restart o)).
  { intros o. unfold restart. listener_frame. }
  split; [apply Hrestart|]. unfold on_finished. listener_frame.
Qed.

(** [#server] is never cleared: an instance that holds a listener holds
    one after every input. *)
Lemma step_keeps_listener i st : is_Some (server st) -> is_Some (server (step i st)).
Proof.
  assert (Hframe : forall A (c : M A) s, respects keeps_listener c ->
            is_Some (server s) -> is_Some (server (exec c s))).
  { intros A c s Hc. apply Hc. }
  pose proof (fun v => callbacks_keep_listener 0 EmptyString 0 EmptyString None EmptyString v)
    as Hset.
  destruct i as [req up | sock uuid | sock data | sock type msg | sock code
                | m id f | m f | m my f | m ids f | id code reason | o | | o | n o]; simpl.
  - apply Hframe.
    apply (methods_keep_listener req up EmptyString None None Bound RestartAfterStart false).
  - destruct (_ && _); [|auto]. apply Hframe.
    pose proof (callbacks_keep_listener sock uuid 0 EmptyString None EmptyString OPEN)
      as (H1 & H2 & _).
    apply respects_bind; [exact keeps_listener_trans | exact H1 | intros _; exact H2].
  - apply Hframe.
    apply (callbacks_keep_listener sock EmptyString 0 EmptyString None data 0).
  - apply Hframe.
    apply (callbacks_keep_listener sock EmptyString 0 type msg EmptyString 0).
  - destruct (_ && _); [|auto]. apply Hframe.
    pose proof (callbacks_keep_listener sock EmptyString code EmptyString None EmptyString CLOSED)
      as (H1 & _ & H3 & _).
    apply respects_bind; [exact keeps_listener_trans | exact H1 | intros _; exact H3].
  - apply Hframe. apply (sends_keep_listener m id EmptyString [] f).
  - apply Hframe. apply (sends_keep_listener m EmptyString EmptyString [] f).
  - apply Hframe. apply (sends_keep_listener m EmptyString my [] f).
  - apply Hframe. apply (sends_keep_listener m EmptyString EmptyString ids f).
  - apply Hframe.
    apply (methods_keep_listener (mkRequest None None) Upgraded id code reason
             Bound RestartAfterStart false).
  - apply Hframe. apply restart_keeps_listener.
  - apply Hframe.
    apply (methods_keep_listener (mkRequest None None) Upgraded EmptyString None None
             Bound RestartAfterStart false).
  - apply Hframe. apply restart_keeps_listener.
  - destruct (suspended st !! n) as [k|]; [|auto].
    intros H.
    apply (proj1 (proj2 (proj2 (proj2
             (methods_keep_listener (mkRequest None None) Upgraded EmptyString None None
                o k false))))
             (with_suspended (delete n (suspended st)) st)).
    exact H.
Qed.

Lemma run_keeps_listener inputs :
  forall st, is_Some (server st) -> is_Some (server (run inputs st)).
Proof.
  induction inputs as [|i rest IH]; intros st H; [exact H|].
  simpl. apply IH, step_keeps_listener, H.
Qed.

(** C3. When the listener's completion is observed with [shouldShutDown]
    false, the error event for the unexpected termination is emitted, and
    the server is restarted exactly when [keepAlive] is configured: with
    it, [restart] runs, shuts the held listener down, calls [Deno.serve]
    and reports "server started", the instance ending up with the new
    listener; without it, nothing is shut down, bound or parked.  Once
    [shutdown] has begun (it sets the flag before the teardown), a
    listener completion observed later, with no [restart] in between,
    triggers nothing.  Once [restart] has begun after that (it clears the
    flag), a listener completion observed later, with no [shutdown] in
    between, is again reported and again restarts the server as
    [keepAlive] says. *)
Theorem keep_alive_follows_shouldShutDown
    (st : WebSocketServer) (l : nat) (outcome now bound last : serve_result)
    (later later' : list input) :
  shouldShutDown st = false ->
  server st = Some l ->
  Forall (fun i => calls_restart i = false) later ->
  Forall (fun i => calls_shutdown i = false) later' ->
  let reported s := with_trace (trace s ++ unexpected_termination s) s in
  let followed s :=
    run [ ListenerFinished outcome; Resume (length (suspended s)) bound;
          Resume (length (suspended s)) last ] s in
  let restarts s l :=
    added s (followed s) = unexpected_termination s ++ restart_report s l bound
    /\ server (followed s)
       = match bound with Bound => Some (listeners s) | ServeThrows _ => Some l end
    /\ shouldShutDown (followed s) = false in
  (on_finished outcome st
   = (if keepAlive (options st) then restart outcome else ret tt) (reported st))
  /\ (keepAlive (options st) = true -> restarts st l)
  /\ (keepAlive (options st) = false -> step (ListenerFinished outcome) st = reported st)
  /\ (let stopped := run later (exec shutdown st) in
      on_finished outcome stopped = (Normal tt, stopped))
  /\ (let restarted := run later' (exec (restart now) (run later (exec shutdown st))) in
      on_finished outcome restarted
      = (if keepAlive (options restarted) then restart outcome else ret tt)
          (reported restarted)
      /\ exists l',
           server restarted = Some l'
           /\ (keepAlive (options restarted) = true -> restarts restarted l')
           /\ (keepAlive (options restarted) = false ->
               step (ListenerFinished outcome) restarted = reported restarted)).
Proof.
  intros Hflag Hl Hlater Hlater' reported followed restarts.
  split; [apply on_finished_unexpected; exact Hflag|].
  split.
  { intros Hkeep.
    destruct (finished_to_end st l outcome bound last Hflag Hkeep Hl) as (Ht & Hs & Hf & _).
    repeat split; assumption. }
  split; [intros Hkeep; apply finished_reports_only; assumption|].
  split.
  { intros stopped. apply on_finished_suppressed.
    apply run_keeps_flag_set; [exact Hlater | apply shutdown_flag]. }
  intros restarted.
  assert (Hclear : shouldShutDown restarted = false).
  { apply run_keeps_flag_clear; [exact Hlater' | apply restart_flag]. }
  assert (Hsome : is_Some (server restarted)).
  { apply run_keeps_listener.
    apply (step_keeps_listener (CallRestart now)).
    apply run_keeps_listener.
    apply (step_keeps_listener CallShutdown). rewrite Hl. eauto. }
  split; [apply on_finished_unexpected; exact Hclear|].
  destruct Hsome as [l' Hl']. exists l'. split; [exact Hl'|]. split.
  - intros Hkeep.
    destruct (finished_to_end restarted l' outcome bound last Hclear Hkeep Hl')
      as (Ht & Hs & Hf & _).
    repeat split; assumption.
  - intros Hkeep. apply finished_reports_only; assumption.
Qed.

Lemma keep_alive_follows_shouldShutDown_witness :
  let st := construct example_options Bound in
  let stopped := run [ListenerFinished Bound; Resume 0 Bound] (exec shutdown st) in
  on_finished Bound stopped = (Normal tt, stopped)
  /\ added st (run [ListenerFinished Bound; Resume 0 Bound; Resume 0 Bound] st)
     = [ OnServerEvent Error (Some "Server finished unexpectedly") None;
         LogCall LogW "WebSocketServer->main" "Server finished unexpectedly" [];
         LogCall LogI "WebSocketServer->main" "Restarting server" [("port", Num 3000)];
         ListenerShutdown 0;
         DenoServe 3000 "127.0.0.1";
         OnServerEvent ServerStarted None None ]
  /\ server (run [ListenerFinished Bound; Resume 0 Bound; Resume 0 Bound] st) = Some 1.
Proof.
  intros st stopped.
  destruct (keep_alive_follows_shouldShutDown
              st 0 Bound Bound Bound Bound [ListenerFinished Bound; Resume 0 Bound] [])
    as (_ & Hrestarts & _ & Hstopped & _).
  - reflexivity.
  - reflexivity.
  - repeat constructor.
  - constructor.
  - destruct (Hrestarts eq_refl) as (Ht & Hs & _).
    split; [exact Hstopped|]. split; [exact Ht | exact Hs].
Defined.



(** X9. [restart] on an instance without a listener (the first bind
    failed), followed to its end with no other input in between: nothing
    is shut down, [Deno.serve] is called at once, and
    "server started" is again reported whatever the bind did; only a
    successful bind gives the instance a listener. *)
Theorem restart_without_listener (st : WebSocketServer) (bound last : serve_result) :
  server st = None ->
  let n := length (suspended st) in
  let st' := run [CallRestart bound; Resume n last] st in
  added st st'
  = [ LogCall LogI (tag st) "Restarting server" [("port", Num (port (options st)))];
      DenoServe (port (options st)) (hostname (options st)) ]
    ++ bind_report st bound ++ [OnServerEvent ServerStarted None None]
  /\ server st' = match bound with Bound => Some (listeners st) | ServeThrows _ => None end
  /\ shouldShutDown st' = false.
Proof.
  intros Hl n st'. subst st'.
  change (run [CallRestart bound; Resume n last] st)
    with (step (Resume n last) (exec (restart bound) st)).
  assert (Hr : exec (restart bound) st
               = exec (start_serve true bound)
                   (with_trace
                      (trace st
                       ++ [LogCall LogI (tag st) "Restarting server"
                             [("port", Num (port (options st)))]])
                      (with_shouldShutDown false st))).
  { destruct st as [o sv ss fl cs ls su tr]. simpl in Hl. subst sv.
    unfold exec, restart, start, log, emit, modify, bind, get. reflexivity. }
  rewrite Hr, start_serve_cases.
  destruct bound as [|e]; cbv zeta; rewrite step_resume_parked by reflexivity;
    destruct st as [o sv ss fl cs ls su tr]; simpl in Hl; subst sv;
    unfold exec, resume, onServerEvent, emit, modify, added; simpl;
    rewrite <- !app_assoc, drop_app_length; auto.
Qed.

Lemma restart_without_listener_witness :
  let st := construct example_options (ServeThrows "AddrInUse") in
  server (run [CallRestart Bound; Resume 0 Bound] st) = Some 0.
Proof.
  intros st.
  destruct (restart_without_listener st Bound Bound) as (_ & Hs & _).
  - reflexivity.
  - exact Hs.
Defined.

(** X10. [shutdown], followed to its end with no other input in between:
    the flag is set first, the
    listener (if there is one) is shut down, and "server shutdown" is
    reported, also when there never was a listener.  [#server] is not
    cleared: it still names the listener that was shut down. *)
Theorem shutdown_sequence (st : WebSocketServer) (outcome : serve_result) :
  let n := length (suspended st) in
  let st' := run [CallShutdown; Resume n outcome] st in
  added st st'
  = [LogCall LogI (tag st) "Shutting down server" [("port", Num (port (options st)))]]
    ++ match server st with Some l => [ListenerShutdown l] | None => [] end
    ++ [OnServerEvent ServerShutdown None None]
  /\ shouldShutDown st' = true
  /\ server st' = server st
  /\ suspended st' = suspended st.
Proof.
  intros n st'. subst st'.
  change (run [CallShutdown; Resume n outcome] st)
    with (step (Resume n outcome) (exec shutdown st)).
  set (st1 :=
         with_trace
           (trace st
            ++ [LogCall LogI (tag st) "Shutting down server" [("port", Num (port (options st)))]]
            ++ match server st with Some l => [ListenerShutdown l] | None => [] end)
           (with_shouldShutDown true st)).
  assert (Hs : exec shutdown st = with_suspended (suspended st1 ++ [ShutdownAfterTeardown]) st1).
  { unfold st1. destruct st as [o [l|] ss fl cs ls su tr];
      unfold exec, shutdown, listener_shutdown, park, log, emit, modify, bind, get, ret; simpl;
      rewrite <- ?app_assoc; reflexivity. }
  rewrite Hs, step_resume_parked by reflexivity.
  unfold st1. destruct st as [o [l|] ss fl cs ls su tr];
    unfold exec, resume, onServerEvent, emit, modify, added; simpl;
    rewrite <- !app_assoc, drop_app_length; auto.
Qed.

(** ** The open and close callbacks, in full *)

Lemma step_opened_full sock uuid st c :
  connections st !! sock = Some c -> readyState c = CONNECTING ->
  step (SocketOpened sock uuid) st
  = with_trace (trace st ++ connected st uuid c)
      (with_sessions (set_property (sessions st) uuid (mkSession sock (requested c)))
         (with_connections
            (alter (fun c => mkConnection (readyState c) uuid (requested c)) sock
               (alter (fun c => mkConnection OPEN (sessionIdVar c) (requested c)) sock
                  (connections st))) st)).
Proof.
  intros Hc Hr.
  remember (step (SocketOpened sock uuid) st) as st' eqn:Hst'.
  unfold step in Hst'.
  rewrite bool_decide_eq_true_2 in Hst' by (eapply lookup_lt_Some; eauto).
  unfold readyStateOf in Hst'. rewrite Hc, Hr in Hst'. simpl in Hst'.
  unfold exec, set_readyState, socket_onopen, with_closure, onServerEvent, log, emit,
    modify, bind, get in Hst'. simpl in Hst'.
  rewrite list_lookup_alter_eq, Hc in Hst'. simpl in Hst'.
  subst st'. destruct st. unfold connected. simpl. rewrite <- app_assoc. reflexivity.
Qed.

Lemma step_closed_full sock code st c :
  connections st !! sock = Some c -> readyState c <> CLOSED ->
  step (SocketClosed sock code) st
  = with_trace (trace st ++ disconnected st (sessionIdVar c) c code)
      (with_sessions (delete_property (sessions st) (sessionIdVar c))
         (with_connections
            (alter (fun c => mkConnection CLOSED (sessionIdVar c) (requested c)) sock
               (connections st)) st)).
Proof.
  intros Hc Hr.
  remember (step (SocketClosed sock code) st) as st' eqn:Hst'.
  unfold step in Hst'.
  rewrite bool_decide_eq_true_2 in Hst' by (eapply lookup_lt_Some; eauto).
  unfold readyStateOf in Hst'. rewrite Hc in Hst'.
  replace (readyState c =? CLOSED) with false in Hst'
    by (symmetry; apply Nat.eqb_neq; exact Hr).
  simpl in Hst'.
  unfold exec, set_readyState, socket_onclose, with_closure, onServerEvent, log, emit,
    modify, bind, get in Hst'. simpl in Hst'.
  rewrite list_lookup_alter_eq, Hc in Hst'. simpl in Hst'.
  subst st'. destruct st. unfold disconnected. simpl. rewrite <- app_assoc. reflexivity.
Qed.

Lemma delete_absent {A} (o : dictionary A) k :
  own_property o k = None -> delete_property o k = o.
Proof.
  induction o as [|[k' v] rest IH]; simpl; [reflexivity|].
  destruct (String.eqb k' k); [discriminate|]. intros H. rewrite (IH H). reflexivity.
Qed.

Lemma delete_set_fresh {A} (o : dictionary A) k v :
  own_property o k = None -> delete_property (set_property o k v) k = o.
Proof.
  induction o as [|[k' v'] rest IH]; simpl.
  - rewrite String.eqb_refl. reflexivity.
  - destruct (String.eqb k' k) eqn:Hk; [discriminate|].
    intros H. simpl. rewrite Hk, (IH H). reflexivity.
Qed.

Lemma delete_twice {A} (o : dictionary A) k :
  delete_property (delete_property o k) k = delete_property o k.
Proof.
  apply delete_absent. rewrite own_property_delete, String.eqb_refl. reflexivity.
Qed.

(** X11. Opening a socket and then closing it is a round trip on the
    registry.  For a connecting socket and a value of
    [crypto.randomUUID()] that is not yet a key: the owner is told "client
    connected" and then "client disconnected" with the same identifier and
    sub-protocols, the socket ends up closed, and the registry is exactly
    what it was before. *)
Theorem open_then_close_restores_registry
    (sock code : nat) (uuid : string) (st : WebSocketServer) (c : connection) :
  connections st !! sock = Some c ->
  readyState c = CONNECTING ->
  own_property (sessions st) uuid = None ->
  let opened := step (SocketOpened sock uuid) st in
  let closed := step (SocketClosed sock code) opened in
  own_property (sessions opened) uuid = Some (mkSession sock (requested c))
  /\ sessions closed = sessions st
  /\ added st closed = connected st uuid c ++ disconnected st uuid c code
  /\ readyStateOf closed sock = CLOSED.
Proof.
  intros Hc Hr Hfresh opened closed.
  assert (Hopened := step_opened_full sock uuid st c Hc Hr). fold opened in Hopened.
  assert (Hc1 : connections opened !! sock = Some (mkConnection OPEN uuid (requested c))).
  { rewrite Hopened. simpl. rewrite !list_lookup_alter_eq, Hc. reflexivity. }
  assert (Hclosed := step_closed_full sock code opened _ Hc1 ltac:(discriminate)).
  fold closed in Hclosed. simpl in Hclosed.
  split; [|split; [|split]].
  - rewrite Hopened. simpl. rewrite own_property_set, String.eqb_refl. reflexivity.
  - rewrite Hclosed, Hopened. simpl. apply delete_set_fresh. exact Hfresh.
  - rewrite Hclosed, Hopened. unfold added, disconnected, connected. simpl.
    rewrite <- app_assoc, drop_app_length. destruct st; reflexivity.
  - rewrite Hclosed. unfold readyStateOf. simpl.
    rewrite list_lookup_alter_eq, Hc1. reflexivity.
Qed.

Lemma open_then_close_restores_registry_witness :
  let st := exec (handler (upgrade_request (Some "chatv1")) Upgraded) three_clients in
  sessions (run [SocketOpened 3 "S4"; SocketClosed 3 1000] st) = sessions three_clients.
Proof.
  intros st.
  destruct (open_then_close_restores_registry 3 1000 "S4" st
              (mkConnection CONNECTING EmptyString ["chatv1"]))
    as (_ & H & _).
  - reflexivity.
  - reflexivity.
  - reflexivity.
  - exact H.
Defined.

(** X12. An explicit disconnect followed by the platform's close event:
    [disconnectSession] on a registered, open session, with a code and a
    reason that [socket.close] accepts, returns true and leaves the
    socket closing; when the socket then closes, the callback's
    removal finds nothing to remove, the registry stays as the disconnect
    left it, and the owner is told "client disconnected" once, with the
    session's identifier. *)
Theorem disconnect_then_close
    (id : string) (code : option nat) (reason : option string) (closeCode : nat)
    (st : WebSocketServer) (s : session) (c : connection) :
  own_property (sessions st) id = Some s ->
  connections st !! socket s = Some c ->
  sessionIdVar c = id ->
  readyState c = OPEN ->
  close_rejection code reason = None ->
  let r := disconnectSession id code reason st in
  let closed := step (SocketClosed (socket s) closeCode) (snd r) in
  fst r = Normal true
  /\ readyStateOf (snd r) (socket s) = CLOSING
  /\ sessions closed = sessions (snd r)
  /\ own_property (sessions closed) id = None
  /\ added (snd r) closed = disconnected st id c closeCode.
Proof.
  intros Hs Hc Hid Hr Hok r closed.
  assert (Hr' : r = (Normal true,
            with_trace
              (trace st
               ++ [ SocketClose (socket s) code reason;
                    LogCall LogV (tag st) "Session disconnected"
                      [("sessionId", Str id); ("code", optNum code);
                       ("reason", optStr reason)] ])
              (with_sessions (delete_property (sessions st) id)
                 (with_connections
                    (alter (fun c => mkConnection CLOSING (sessionIdVar c) (requested c))
                       (socket s) (connections st)) st)))).
  { unfold r. rewrite disconnectSession_cases.
    apply get_property_own in Hs. rewrite Hs, Hok. cbv zeta.
    unfold readyStateOf. rewrite Hc, Hr. reflexivity. }
  assert (Hc1 : connections (snd r) !! socket s
                = Some (mkConnection CLOSING id (requested c))).
  { rewrite Hr'. simpl. rewrite list_lookup_alter_eq, Hc. simpl. rewrite Hid. reflexivity. }
  assert (Hclosed := step_closed_full (socket s) closeCode (snd r) _ Hc1 ltac:(discriminate)).
  fold closed in Hclosed. simpl in Hclosed.
  split; [rewrite Hr'; reflexivity|]. split; [|split; [|split]].
  - unfold readyStateOf. rewrite Hc1. reflexivity.
  - rewrite Hclosed, Hr'. simpl. apply delete_twice.
  - rewrite Hclosed, Hr'. simpl. rewrite delete_twice, own_property_delete, String.eqb_refl.
    reflexivity.
  - rewrite Hclosed. unfold added. simpl. rewrite drop_app_length.
    rewrite Hr'. unfold disconnected. destruct st; reflexivity.
Qed.

Lemma disconnect_then_close_witness :
  let r := disconnectSession "S2" (Some 1000) None three_clients in
  keys (sessions (step (SocketClosed 1 1000) (snd r))) = ["S1"; "S3"].
Proof.
  intros r.
  destruct (disconnect_then_close "S2" (Some 1000) None 1000 three_clients
              (mkSession 1 ["chatv1"; "v2"]) (mkConnection OPEN "S2" ["chatv1"; "v2"]))
    as (_ & _ & H & _).
  - reflexivity.
  - reflexivity.
  - reflexivity.
  - reflexivity.
  - reflexivity.
  - exact (eq_trans (f_equal keys H) eq_refl).
Defined.

(** X13. A socket that closes without ever having opened (the handshake
    failed after the upgrade): the owner is told "client disconnected"
    with the empty identifier the callbacks start with, although no
    "client connected" was ever reported for it; the registry is untouched
    (as long as no session is registered under the empty string), and a
    later open event for that socket is ignored. *)
Theorem close_before_open
    (sock code : nat) (uuid : string) (st : WebSocketServer) (c : connection) :
  connections st !! sock = Some c ->
  readyState c = CONNECTING ->
  sessionIdVar c = EmptyString ->
  own_property (sessions st) EmptyString = None ->
  let closed := step (SocketClosed sock code) st in
  sessions closed = sessions st
  /\ added st closed = disconnected st EmptyString c code
  /\ issued (trace closed) = issued (trace st)
  /\ step (SocketOpened sock uuid) closed = closed.
Proof.
  intros Hc Hr Hid Hnone closed.
  assert (Hne : readyState c <> CLOSED) by (rewrite Hr; discriminate).
  assert (Hclosed := step_closed_full sock code st c Hc Hne). fold closed in Hclosed.
  rewrite Hid in Hclosed.
  split; [|split; [|split]].
  - rewrite Hclosed. simpl. apply delete_absent. exact Hnone.
  - rewrite Hclosed. unfold added. simpl. apply drop_app_length.
  - rewrite Hclosed. simpl. rewrite issued_app. simpl. apply app_nil_r.
  - apply step_opened_ignored. intros c' Hc'.
    rewrite Hclosed in Hc'. simpl in Hc'.
    rewrite list_lookup_alter_eq, Hc in Hc'. injection Hc' as <-. discriminate.
Qed.

Lemma close_before_open_witness :
  let st := exec (handler (upgrade_request (Some "chatv1")) Upgraded) three_clients in
  sessions (step (SocketClosed 3 1006) st) = sessions three_clients.
Proof.
  intros st.
  destruct (close_before_open 3 1006 "S4" st (mkConnection CONNECTING EmptyString ["chatv1"]))
    as (H & _).
  - reflexivity.
  - reflexivity.
  - reflexivity.
  - reflexivity.
  - exact H.
Defined.

(** ** The registry in every reachable state *)

Lemma announced_step i st :
  (forall id s, own_property (sessions st) id = Some s -> id ∈ issued (trace st)) ->
  forall id s, own_property (sessions (step i st)) id = Some s ->
               id ∈ issued (trace (step i st)).
Proof.
  intros Hinv id s.
  destruct (opening_or_not i) as [(sock & uuid & ->)|Hi].
  - destruct (connections st !! sock) as [c|] eqn:Hc.
    + destruct (decide (readyState c = CONNECTING)) as [Hr|Hr].
      * destruct (step_opened sock uuid st c Hc Hr) as (Hs & _ & _ & Ht).
        rewrite Hs, Ht, own_property_set.
        destruct (String.eqb_spec uuid id) as [->|Hne]; intros Hid.
        -- apply elem_of_app. right. left.
        -- apply elem_of_app. left. eapply Hinv. exact Hid.
      * rewrite step_opened_ignored; [apply Hinv|]. intros c' Hc'. congruence.
    + rewrite step_opened_ignored; [apply Hinv|]. intros c' Hc'. congruence.
  - destruct (step_shrinks i st Hi) as (Ht & Hs & _).
    rewrite Ht. intros Hid. eapply Hinv, Hs, Hid.
Qed.

Lemma announced_run inputs :
  forall st,
    (forall id s, own_property (sessions st) id = Some s -> id ∈ issued (trace st)) ->
    forall id s, own_property (sessions (run inputs st)) id = Some s ->
                 id ∈ issued (trace (run inputs st)).
Proof.
  induction inputs as [|i rest IH]; intros st Hinv; [exact Hinv|].
  simpl. apply IH. apply announced_step. exact Hinv.
Qed.

(** X14. In every state the instance can reach, each registry entry
    belongs to a session the owner was told about in a "client connected"
    event, its socket exists and is past connecting, and the callbacks of
    that socket hold the entry's key as their [sessionId]. *)
Theorem registry_entries_announced
    (options : IWebSocketServerOptions) (outcome : serve_result) (inputs : list input)
    (id : string) (s : session) :
  let st := run inputs (construct options outcome) in
  own_property (sessions st) id = Some s ->
  id ∈ issued (trace st)
  /\ exists c, connections st !! socket s = Some c
               /\ readyState c <> CONNECTING /\ sessionIdVar c = id.
Proof.
  intros st Hid. split.
  - eapply (announced_run inputs (construct options outcome)); [|exact Hid].
    intros id' s'. destruct outcome; discriminate.
  - pose proof (run_consistent inputs [] _ (construct_consistent options outcome)) as Hcons.
    destruct Hcons as [_ Hreg]. apply Hreg. exact Hid.
Qed.

Lemma registry_entries_announced_witness : "S2" ∈ issued (trace three_clients).
Proof.
  refine (proj1 (registry_entries_announced
                   example_options Bound
                   [ Incoming (upgrade_request (Some "chatv1")) Upgraded;
                     Incoming (upgrade_request (Some "chatv1, v2")) Upgraded;
                     Incoming (upgrade_request None) Upgraded;
                     SocketOpened 0 "S1"; SocketOpened 1 "S2"; SocketOpened 2 "S3" ]
                   "S2" (mkSession 1 ["chatv1"; "v2"]) _)).
  reflexivity.
Defined.

Lemma socket_message_forwarded st sock c data :
  connections st !! sock = Some c ->
  step (SocketMessage sock data) st
  = with_trace
      (trace st
       ++ [ OnMessageReceived data (mkServerSession (sessionIdVar c) (requested c));
            LogCall LogV (tag st) "Message received"
              [("sessionId", Str (sessionIdVar c)); ("subprotocols", Strs (requested c));
               ("type", Str "message"); ("message", Str data)] ]) st.
Proof.
  intros Hc.
  unfold step, exec, socket_onmessage, with_closure, log, emit, modify, bind, get.
  rewrite Hc. destruct st; simpl. rewrite <- app_assoc. reflexivity.
Qed.

Lemma socket_error_forwarded st sock c type message :
  connections st !! sock = Some c ->
  step (SocketErrored sock type message) st
  = with_trace
      (trace st
       ++ [ OnServerEvent Error (Some type)
              (Some (mkServerSession (sessionIdVar c) (requested c)));
            LogCall LogE (tag st) "Server error"
              [("sessionId", Str (sessionIdVar c)); ("subprotocols", Strs (requested c));
               ("type", Str type); ("message", optStr message)] ]) st.
Proof.
  intros Hc.
  unfold step, exec, socket_onerror, with_closure, onServerEvent, log, emit, modify, bind, get.
  rewrite Hc. destruct st; simpl. rewrite <- app_assoc. reflexivity.
Qed.

(** X15. In every reachable state, a message or an error arriving on the
    socket of a registered session reaches the owner tagged with that
    session's registry key, and changes nothing but the trace. *)
Theorem events_carry_the_registry_key
    (options : IWebSocketServerOptions) (outcome : serve_result) (inputs : list input)
    (id data type : string) (message : option string) (s : session) :
  let st := run inputs (construct options outcome) in
  own_property (sessions st) id = Some s ->
  exists c,
    connections st !! socket s = Some c
    /\ step (SocketMessage (socket s) data) st
       = with_trace
           (trace st
            ++ [ OnMessageReceived data (mkServerSession id (requested c));
                 LogCall LogV (tag st) "Message received"
                   [("sessionId", Str id); ("subprotocols", Strs (requested c));
                    ("type", Str "message"); ("message", Str data)] ]) st
    /\ step (SocketErrored (socket s) type message) st
       = with_trace
           (trace st
            ++ [ OnServerEvent Error (Some type) (Some (mkServerSession id (requested c)));
                 LogCall LogE (tag st) "Server error"
                   [("sessionId", Str id); ("subprotocols", Strs (requested c));
                    ("type", Str type); ("message", optStr message)] ]) st.
Proof.
  intros st Hid.
  pose proof (run_consistent inputs [] _ (construct_consistent options outcome)) as Hcons.
  fold st in Hcons. destruct Hcons as [_ Hreg].
  destruct (Hreg id s Hid) as (c & Hc & _ & <-). exists c.
  split; [exact Hc|]. split.
  - apply socket_message_forwarded. exact Hc.
  - apply socket_error_forwarded. exact Hc.
Qed.

Lemma events_carry_the_registry_key_witness :
  exists c,
    connections three_clients !! 1 = Some c
    /\ step (SocketMessage 1 "ping") three_clients
       = with_trace
           (trace three_clients
            ++ [ OnMessageReceived "ping" (mkServerSession "S2" (requested c));
                 LogCall LogV (tag three_clients) "Message received"
                   [("sessionId", Str "S2"); ("subprotocols", Strs (requested c));
                    ("type", Str "message"); ("message", Str "ping")] ]) three_clients.
Proof.
  destruct (events_carry_the_registry_key
              example_options Bound
              [ Incoming (upgrade_request (Some "chatv1")) Upgraded;
                Incoming (upgrade_request (Some "chatv1, v2")) Upgraded;
                Incoming (upgrade_request None) Upgraded;
                SocketOpened 0 "S1"; SocketOpened 1 "S2"; SocketOpened 2 "S3" ]
              "S2" "ping" "error" None (mkSession 1 ["chatv1"; "v2"]))
    as (c & Hc & Hm & _).
  - reflexivity.
  - exists c. exact (conj Hc Hm).
Defined.

Lemma NoDup_keys_set {A} (o : dictionary A) k v :
  NoDup (keys o) -> NoDup (keys (set_property o k v)).
Proof.
  intros Hnd. destruct (own_property o k) as [v'|] eqn:Hk.
  - rewrite keys_set_present by eauto. exact Hnd.
  - rewrite keys_set_fresh by exact Hk. apply NoDup_app. split; [exact Hnd|].
    split; [|apply NoDup_singleton].
    intros x Hx Hin. apply list_elem_of_singleton in Hin. subst x.
    apply own_property_keys in Hx. destruct Hx as [? Hx]. congruence.
Qed.

Lemma NoDup_keys_delete {A} (o : dictionary A) k :
  NoDup (keys o) -> NoDup (keys (delete_property o k)).
Proof.
  intros Hnd. rewrite keys_delete.
  induction Hnd as [|x l Hx Hnd IH]; simpl; [constructor|].
  destruct (negb (String.eqb x k)); [|exact IH].
  constructor; [|exact IH].
  intros Hin. apply Hx. apply list_elem_of_In in Hin. apply filter_In in Hin.
  apply list_elem_of_In. tauto.
Qed.

(** Each input stores one key, removes one key, or leaves the registry. *)
Lemma step_sessions_shape i st :
  sessions (step i st) = sessions st
  \/ (exists k, sessions (step i st) = delete_property (sessions st) k)
  \/ (exists k v, sessions (step i st) = set_property (sessions st) k v).
Proof.
  destruct (opening_or_not i) as [(sock & uuid & ->)|Hi].
  - destruct (connections st !! sock) as [c|] eqn:Hc.
    + destruct (decide (readyState c = CONNECTING)) as [Hr|Hr].
      * right. right. eexists _, _. rewrite (step_opened_full sock uuid st c Hc Hr). reflexivity.
      * left. rewrite step_opened_ignored; [reflexivity|]. intros c' Hc'. congruence.
    + left. rewrite step_opened_ignored; [reflexivity|]. intros c' Hc'. congruence.
  - assert (Hsame : forall A (c : M A), respects same_world c ->
              sessions (exec c st) = sessions st).
    { intros A c Hc. apply Hc. }
    destruct i as [req up | sock uuid | sock data | sock type msg | sock code
                  | m id f | m f | m my f | m ids f | id code reason | o | | o | n o].
    + left. simpl. unfold exec.
      destruct (decide (upgrade req = Some "websocket")) as [Hup|Hup].
      * destruct up as [|e].
        -- rewrite handler_upgraded by exact Hup. reflexivity.
        -- rewrite handler_upgrade_throws by exact Hup. reflexivity.
      * rewrite handler_not_upgrade by exact Hup. reflexivity.
    + exfalso. eapply Hi. reflexivity.
    + left. apply Hsame. apply (callbacks_same_world sock EmptyString None data).
    + left. apply Hsame. apply (callbacks_same_world sock type msg EmptyString).
    + destruct (connections st !! sock) as [c|] eqn:Hc.
      * destruct (decide (readyState c = CLOSED)) as [Hr|Hr].
        -- left. rewrite step_closed_ignored; [reflexivity|]. intros c' Hc'. congruence.
        -- right. left. exists (sessionIdVar c).
           apply (step_closed sock code st c Hc Hr).
      * left. rewrite step_closed_ignored; [reflexivity|]. intros c' Hc'. congruence.
    + left. apply Hsame, sendMessage_same_world.
    + left. apply Hsame. apply (broadcasts_same_world m EmptyString [] f).
    + left. apply Hsame. apply (broadcasts_same_world m my [] f).
    + left. apply Hsame. apply (broadcasts_same_world m EmptyString ids f).
    + simpl. unfold exec. rewrite disconnectSession_cases.
      destruct (get_property (sessions st) id) as [s| |]; [|left; reflexivity..].
      destruct (close_rejection code reason) as [e|]; [left; reflexivity|].
      right. left. eexists. reflexivity.
    + left. apply Hsame, restart_same_world.
    + left. apply Hsame. apply (lifecycle_same_world Bound ShutdownAfterTeardown).
    + left. apply Hsame. apply (lifecycle_same_world o ShutdownAfterTeardown).
    + simpl. destruct (suspended st !! n) as [k|]; [|left; reflexivity].
      left.
      apply (proj2 (proj2 (lifecycle_same_world o k))
               (with_suspended (delete n (suspended st)) st)).
Qed.

Lemma run_NoDup_keys inputs :
  forall st, NoDup (keys (sessions st)) -> NoDup (keys (sessions (run inputs st))).
Proof.
  induction inputs as [|i rest IH]; intros st Hnd; [exact Hnd|].
  simpl. apply IH.
  destruct (step_sessions_shape i st) as [->|[(k & ->)|(k & v & ->)]];
    [exact Hnd | apply NoDup_keys_delete; exact Hnd | apply NoDup_keys_set; exact Hnd].
Qed.

Lemma filter_without_absent (P : string -> bool) id ks :
  id ∉ ks ->
  List.filter (fun k => negb (String.eqb k id)) ks = ks.
Proof.
  induction ks as [|k rest IH]; intros Hnot; simpl; [reflexivity|].
  destruct (String.eqb_spec k id) as [->|Hne].
  - exfalso. apply Hnot. left.
  - simpl. rewrite IH; [reflexivity|]. intros Hin. apply Hnot. right. exact Hin.
Qed.

Lemma count_without (P : string -> bool) id ks :
  NoDup ks -> (P id = true -> id ∈ ks) ->
  length (List.filter P ks)
  = length (List.filter P (List.filter (fun k => negb (String.eqb k id)) ks))
    + (if P id then 1 else 0).
Proof.
  induction ks as [|k rest IH]; intros Hnd Hin; simpl.
  - destruct (P id) eqn:HP; [|reflexivity].
    specialize (Hin eq_refl). inversion Hin.
  - apply NoDup_cons in Hnd. destruct Hnd as [Hk Hnd].
    destruct (String.eqb_spec k id) as [->|Hne]; simpl.
    + rewrite (filter_without_absent P id rest Hk).
      destruct (P id); simpl; lia.
    + assert (Hin' : P id = true -> id ∈ rest).
      { intros HP. specialize (Hin HP). inversion Hin; subst; [congruence | assumption]. }
      specialize (IH Hnd Hin'). destruct (P k); simpl; lia.
Qed.

(** X16. In every reachable state the two broadcasts agree: the count
    [sendMessageToAll] returns is the count [sendMessageToOthers] returns
    for any identifier, plus one exactly when [sendMessage] to that
    identifier would return true. *)
Theorem sendMessageToAll_is_others_plus_one
    (options : IWebSocketServerOptions) (outcome : serve_result) (inputs : list input)
    (message mySessionId : string) (filter : option TWebSocketServerSessionSubprotocols) :
  let st := run inputs (construct options outcome) in
  exists n,
    fst (sendMessageToOthers message mySessionId filter st) = Normal n
    /\ fst (sendMessageToAll message filter st)
       = Normal (n + if would_send st message filter mySessionId then 1 else 0).
Proof.
  intros st.
  rewrite sendMessageToOthers_spec, sendMessageToAll_spec. simpl.
  eexists. split; [reflexivity|]. f_equal.
  apply count_without.
  - apply run_NoDup_keys. destruct outcome; constructor.
  - intros Hsend. apply own_property_keys.
    unfold would_send, returned_true in Hsend. rewrite sendMessage_cases in Hsend.
    destruct (get_property (sessions st) mySessionId) as [s| |] eqn:Hget;
      try discriminate.
    apply get_property_own in Hget. eauto.
Qed.
